(** * sl3 interpreter: precedence-climbing parser and tree-walking evaluator

    A shallow embedding of the Go sources [parser/parser.go] and of the two
    evaluator files (operator evaluation and the [eval] dispatcher), with the
    properties of the specification stated and settled over it.

    Go packages become modules of the same name: [tokens], [ast], [objects],
    [parser], [evaluator].  Go pointers to environments become addresses in
    an explicit heap that every evaluation step threads; a host-level panic
    is an outcome of its own, next to running out of fuel. *)

From Stdlib Require Import ZArith String List Lia Bool.
From stdpp Require Import base gmap strings list option.

Set Warnings "-register-all".

Open Scope Z_scope.

(** ** Token kinds

    The kinds are the constants of the [tokens] package that the parser
    names ([precedences], [InitParsingFns], [parseStatement]), plus the two
    the grammar of the specification needs for grouping and argument lists. *)
Module tokens.

Inductive TokenType : Set :=
| EQUALS | NOTEQUAL | LT | GT | PLUS | MINUS | ASTERISC | SLASH
| FUNCTION | LPAR | RPAR | COMMA | BANG | IDENT | NUMBER | STRING
| TRUE | FALSE | IF | FOR | EOF | VAR | RETURN | LINEBREAK | SEMICOLON
| OTHER (kind : string).

#[global] Instance TokenType_eq_dec : EqDecision TokenType.
Proof. solve_decision. Defined.

Record Token : Set := mkToken { Type_ : TokenType; Literal : string }.

#[global] Instance Token_eq_dec : EqDecision Token.
Proof. solve_decision. Defined.

End tokens.

(** ** Abstract syntax

    One constructor per node kind that [eval] dispatches on.  An identifier
    in binding position is kept as its [Value] string, which is all the
    evaluator reads of it, and an integer literal holds the [int64] the
    parser read.  The fields of [ast.ForLoop] are declared outside the
    available sources: the node keeps its child nodes as a list. *)
Module ast.

Inductive Node : Type :=
| Program (Statements : list Node)
| ExpressionStatement (Expression : Node)
| VarStatement (Identifier : string) (Value : Node)
| ReturnStatement (ReturnValue : Node)
| FunctionStatement (Identifier : string) (Parameters : list string) (Body : Node)
| BlockStatement (Statements : list Node)
| ForLoop (Fields : list Node)
| Identifier (Value : string)
| IntegerLiteral (Value : Z)
| StringLiteral (Value : string)
| Boolean (Token : tokens.Token)
| PrefixExpression (Operator : string) (Right : Node)
| InfixExpression (Left : Node) (Operator : string) (Right : Node)
| IfExpression (Condition : Node) (Consequence : Node) (Alternative : option Node)
| FunctionCall (Identifier : Node) (Arguments : list Node)
| AnonymousFunction (Parameters : list string) (Body : Node).

(** Programs without loop nodes, also inside function bodies. *)
Fixpoint loop_free (n : Node) : bool :=
  match n with
  | Program ss => forallb loop_free ss
  | ExpressionStatement e => loop_free e
  | VarStatement _ v => loop_free v
  | ReturnStatement v => loop_free v
  | FunctionStatement _ _ b => loop_free b
  | BlockStatement ss => forallb loop_free ss
  | ForLoop _ => false
  | Identifier _ | IntegerLiteral _ | StringLiteral _ | Boolean _ => true
  | PrefixExpression _ r => loop_free r
  | InfixExpression l _ r => loop_free l && loop_free r
  | IfExpression c t e =>
      loop_free c && loop_free t &&
      match e with Some a => loop_free a | None => true end
  | FunctionCall f args => loop_free f && forallb loop_free args
  | AnonymousFunction _ b => loop_free b
  end.

End ast.

(** ** Runtime values and environments *)
Module objects.

(** The two package-level statics of the evaluator and any Boolean
    allocated afterwards: Go compares them by address. *)
Inductive BooleanPtr : Set :=
| true_obj
| false_obj
| new_Boolean (Value : bool).

Definition Boolean_Value (p : BooleanPtr) : bool :=
  match p with
  | true_obj => true
  | false_obj => false
  | new_Boolean v => v
  end.

Inductive Object : Type :=
| Integer (Value : Z)
| Boolean (ptr : BooleanPtr)
| String (Value : string)
| FunctionObject (Parameters : list string) (Body : ast.Node)
| ReturnObject (Value : option Object)
| ErrorObject (Message : string).

(** An interface value: [None] is Go's nil. *)
Abbreviation Value := (option Object).

Inductive ObjectType : Set :=
| INTEGER_OBJ | BOOL_OBJ | STRING_OBJ | FUNCTION_OBJ | RETURN_OBJ | ERROR_OBJ.

#[global] Instance ObjectType_eq_dec : EqDecision ObjectType.
Proof. solve_decision. Defined.

Definition Type_ (o : Object) : ObjectType :=
  match o with
  | Integer _ => INTEGER_OBJ
  | Boolean _ => BOOL_OBJ
  | String _ => STRING_OBJ
  | FunctionObject _ _ => FUNCTION_OBJ
  | ReturnObject _ => RETURN_OBJ
  | ErrorObject _ => ERROR_OBJ
  end.

Definition NewError (message : string) : Object := ErrorObject message.

(** Signed 64-bit wrap-around of the Go [int64] operations. *)
Definition wrap64 (z : Z) : Z := (z + 2 ^ 63) mod 2 ^ 64 - 2 ^ 63.

(** Modelled from the spec: the [Storage] type of the objects package is not
    in the available sources.  An environment is "a mapping from name to
    runtime value plus an optional reference to an enclosing environment";
    references are addresses in a heap of environments. *)
Record Storage : Type := mkStorage {
  store : gmap string Value;
  outer : option nat
}.

Abbreviation Env := nat.
Abbreviation Heap := (list Storage).

(** Modelled from the spec: "Lookup walks outward through the chain". *)
Fixpoint Get_chain (n : nat) (h : Heap) (e : Env) (name : string) : option Value :=
  match n with
  | O => None
  | S n' =>
      match h !! e with
      | None => None
      | Some s =>
          match store s !! name with
          | Some v => Some v
          | None =>
              match outer s with
              | Some p => Get_chain n' h p name
              | None => None
              end
          end
      end
  end.

Definition Get (h : Heap) (e : Env) (name : string) : option Value :=
  Get_chain (length h) h e name.

(** Modelled from the spec: "binding always writes to the innermost scope". *)
Definition bind_name (name : string) (v : Value) (s : Storage) : Storage :=
  {| store := <[name := v]> (store s); outer := outer s |}.

Definition Set_ (h : Heap) (e : Env) (name : string) (v : Value) : Heap :=
  alter (bind_name name v) e h.

Definition NewStorage : Storage := {| store := ∅; outer := None |}.

Definition NewEnclosedStorage (parent : Env) : Storage :=
  {| store := ∅; outer := Some parent |}.

End objects.

(** ** The parser *)
Module parser.

Definition LOWEST : nat := 0.
Definition EQUALS : nat := 1.
Definition GREATLESS : nat := 2.
Definition SUM : nat := 3.
Definition PROD : nat := 4.
Definition PREFIX : nat := 5.
Definition CALL : nat := 6.

Definition precedences (t : tokens.TokenType) : option nat :=
  match t with
  | tokens.EQUALS => Some EQUALS
  | tokens.NOTEQUAL => Some EQUALS
  | tokens.LT => Some GREATLESS
  | tokens.GT => Some GREATLESS
  | tokens.PLUS => Some SUM
  | tokens.MINUS => Some SUM
  | tokens.ASTERISC => Some PROD
  | tokens.SLASH => Some PROD
  | tokens.FUNCTION => Some CALL
  | tokens.LPAR => Some CALL
  | _ => None
  end.

(** The lexer is an external collaborator: it is the stream of tokens it
    still has to deliver, followed by end-of-input for ever. *)
Record Parser : Type := mkParser {
  lexer : list tokens.Token;
  errors : list string;
  currentToken : tokens.Token;
  nextToken : tokens.Token
}.

(** A parsing step: the node it yields, if any, and the parser after it;
    [None] when the recursion budget is used up. *)
Definition P (A : Type) : Type := Parser -> option (A * Parser).

Definition prefixFn : Type := P (option ast.Node).
Definition infixFn : Type := option ast.Node -> P (option ast.Node).

Definition EOF_token : tokens.Token := tokens.mkToken tokens.EOF "".

(** Modelled from the spec: the token cursor of the parser is not in the
    available sources.  The parser holds the current and the next token of
    the stream ("the next token's declared precedence"); advancing shifts
    the window by one. *)
Definition advanceToken (p : Parser) : Parser :=
  {| lexer := tail (lexer p);
     errors := errors p;
     currentToken := nextToken p;
     nextToken := hd EOF_token (lexer p) |}.

Definition curTokenIs (p : Parser) (t : tokens.TokenType) : bool :=
  bool_decide (tokens.Type_ (currentToken p) = t).

Definition nextTokenIs (p : Parser) (t : tokens.TokenType) : bool :=
  bool_decide (tokens.Type_ (nextToken p) = t).

(** Modelled from the spec: "Tokens absent from the table are treated as
    LOWEST". *)
Definition nextPrecendence (p : Parser) : nat :=
  default LOWEST (precedences (tokens.Type_ (nextToken p))).

Definition curPrecedence (p : Parser) : nat :=
  default LOWEST (precedences (tokens.Type_ (currentToken p))).

Definition addError (msg : string) (p : Parser) : Parser :=
  {| lexer := lexer p; errors := errors p ++ [msg];
     currentToken := currentToken p; nextToken := nextToken p |}.

Definition HasErrors (p : Parser) : bool :=
  negb (bool_decide (length (errors p) = 0%nat)).

Definition Errors (p : Parser) : list string := errors p.

(** Decimal digits of an integer literal. *)
Definition digit_of (c : Ascii.ascii) : option Z :=
  let n := Z.of_nat (Ascii.nat_of_ascii c) in
  if bool_decide (48 <= n <= 57) then Some (n - 48) else None.

Fixpoint digits_from (acc : Z) (s : string) : option Z :=
  match s with
  | EmptyString => Some acc
  | String.String c rest =>
      match digit_of c with
      | Some d => digits_from (10 * acc + d) rest
      | None => None
      end
  end.

Definition parseInt (s : string) : option Z :=
  match s with
  | EmptyString => None
  | _ =>
      match digits_from 0 s with
      | Some z => if bool_decide (z < 2 ^ 63) then Some z else None
      | None => None
      end
  end.

(** The handlers and statement parsers whose grammar the specification
    leaves open, and the lexer constructor: files outside the available
    sources. *)
Record Absent : Type := mkAbsent {
  NewLexer : string -> list tokens.Token;
  parseIfExpression : prefixFn;
  parseAnonnymousFunction : prefixFn;
  parseForLoop : prefixFn;
  parseCall : infixFn;
  parseVarStatement : P (option ast.Node);
  parseReturnStatement : P (option ast.Node);
  parseFunctionStatement : P (option ast.Node);
  parseExpressionStatement : P (option ast.Node)
}.

Section Parse.

Variable absent : Absent.

Section Handlers.

(** The recursive call [p.parseExpression]. *)
Variable parseExpression : nat -> P (option ast.Node).

(** Modelled from the spec: the literal handlers are not in the available
    sources; each builds the node of the current token. *)
Definition parseIdentifier : prefixFn :=
  fun p => Some (Some (ast.Identifier (tokens.Literal (currentToken p))), p).

Definition parseString : prefixFn :=
  fun p => Some (Some (ast.StringLiteral (tokens.Literal (currentToken p))), p).

Definition parseBoolExpression : prefixFn :=
  fun p => Some (Some (ast.Boolean (currentToken p)), p).

Definition parseNumber : prefixFn :=
  fun p =>
    match parseInt (tokens.Literal (currentToken p)) with
    | Some z => Some (Some (ast.IntegerLiteral z), p)
    | None =>
        Some (None, addError ("Cannot parse as integer: "
                                +:+ tokens.Literal (currentToken p)) p)
    end.

(** Modelled from the spec: unary [-] and [!] bind their operand at PREFIX;
    an absent operand is not embedded in a parent node. *)
Definition parsePrefixExpression : prefixFn :=
  fun p =>
    let Operator := tokens.Literal (currentToken p) in
    match parseExpression PREFIX (advanceToken p) with
    | Some (Some right_exp, p') =>
        Some (Some (ast.PrefixExpression Operator right_exp), p')
    | Some (None, p') => Some (None, p')
    | None => None
    end.

(** Modelled from the spec: a parenthesized group; "a missing required
    token (e.g., unmatched closing parenthesis) records a descriptive error
    and yields an absent node". *)
Definition parseGroupedExpression : prefixFn :=
  fun p =>
    match parseExpression LOWEST (advanceToken p) with
    | Some (exp, p') =>
        if nextTokenIs p' tokens.RPAR then Some (exp, advanceToken p')
        else Some (None, addError ("Expected a closing parenthesis, got: "
                                     +:+ tokens.Literal (nextToken p')) p')
    | None => None
    end.

(** Modelled from the spec: "Left-associativity for same-precedence binary
    operators is achieved by re-entering parseExpression bound at the
    operator's own precedence". *)
Definition parseInfixExpression : infixFn :=
  fun left_exp p =>
    let Operator := tokens.Literal (currentToken p) in
    let precedence := curPrecedence p in
    match parseExpression precedence (advanceToken p) with
    | Some (Some right_exp, p') =>
        match left_exp with
        | Some l => Some (Some (ast.InfixExpression l Operator right_exp), p')
        | None => Some (None, p')
        end
    | Some (None, p') => Some (None, p')
    | None => None
    end.

(** The registrations of [InitParsingFns]. *)
Definition prefixParseFns (t : tokens.TokenType) : option prefixFn :=
  match t with
  | tokens.BANG => Some parsePrefixExpression
  | tokens.MINUS => Some parsePrefixExpression
  | tokens.IDENT => Some parseIdentifier
  | tokens.NUMBER => Some parseNumber
  | tokens.STRING => Some parseString
  | tokens.TRUE => Some parseBoolExpression
  | tokens.FALSE => Some parseBoolExpression
  | tokens.LPAR => Some parseGroupedExpression
  | tokens.IF => Some (parseIfExpression absent)
  | tokens.FUNCTION => Some (parseAnonnymousFunction absent)
  | tokens.FOR => Some (parseForLoop absent)
  | _ => None
  end.

Definition infixParseFns (t : tokens.TokenType) : option infixFn :=
  match t with
  | tokens.MINUS => Some parseInfixExpression
  | tokens.PLUS => Some parseInfixExpression
  | tokens.SLASH => Some parseInfixExpression
  | tokens.ASTERISC => Some parseInfixExpression
  | tokens.GT => Some parseInfixExpression
  | tokens.LT => Some parseInfixExpression
  | tokens.EQUALS => Some parseInfixExpression
  | tokens.NOTEQUAL => Some parseInfixExpression
  | tokens.LPAR => Some (parseCall absent)
  | _ => None
  end.

(** The [for] loop of [parseExpression]; [n] bounds its iterations. *)
Fixpoint infixLoop (n : nat) (precedence : nat) (exp : option ast.Node)
    : P (option ast.Node) :=
  fun p =>
    if negb (nextTokenIs p tokens.SEMICOLON)
       && bool_decide (precedence < nextPrecendence p)%nat
    then
      match infixParseFns (tokens.Type_ (nextToken p)) with
      | None => Some (exp, p)
      | Some infix =>
          match n with
          | O => None
          | S n' =>
              match infix exp (advanceToken p) with
              | Some (exp', p') => infixLoop n' precedence exp' p'
              | None => None
              end
          end
      end
    else Some (exp, p).

End Handlers.

Fixpoint parseExpression (fuel : nat) (precedence : nat) : P (option ast.Node) :=
  fun p =>
    match fuel with
    | O => None
    | S fuel' =>
        match prefixParseFns (parseExpression fuel')
                (tokens.Type_ (currentToken p)) with
        | None =>
            Some (None, addError ("Not prefixFn found for: "
                                    +:+ tokens.Literal (currentToken p)) p)
        | Some prefix =>
            match prefix p with
            | Some (exp, p') =>
                infixLoop (parseExpression fuel') fuel' precedence exp p'
            | None => None
            end
        end
    end.

Definition parseStatement : P (option ast.Node) :=
  fun p =>
    match tokens.Type_ (currentToken p) with
    | tokens.VAR => parseVarStatement absent p
    | tokens.RETURN => parseReturnStatement absent p
    | tokens.FUNCTION => parseFunctionStatement absent p
    | tokens.LINEBREAK => Some (None, p)
    | _ => parseExpressionStatement absent p
    end.

(** The loop of [ParseProgram]; [Statements] is the slice built so far. *)
Fixpoint ParseProgram_from (fuel : nat) (Statements : list ast.Node)
    : P (list ast.Node) :=
  fun p =>
    if negb (curTokenIs p tokens.EOF) then
      match fuel with
      | O => None
      | S fuel' =>
          match parseStatement p with
          | Some (Some stmt, p') =>
              ParseProgram_from fuel' (Statements ++ [stmt]) (advanceToken p')
          | Some (None, p') =>
              ParseProgram_from fuel' Statements (advanceToken p')
          | None => None
          end
      end
    else Some (Statements, p).

Definition ParseProgram (fuel : nat) : P (list ast.Node) :=
  ParseProgram_from fuel [].

(** [InitParsingFns] advances twice "to setup the parser in the correct
    initial state"; the two tables are [prefixParseFns] and
    [infixParseFns]. *)
Definition NewParserFromLexer (lexer : list tokens.Token) : Parser :=
  advanceToken (advanceToken
    {| lexer := lexer; errors := [];
       currentToken := EOF_token; nextToken := EOF_token |}).

Definition NewParser (input : string) : Parser :=
  NewParserFromLexer (NewLexer absent input).

End Parse.

End parser.

(** ** The evaluator *)
Module evaluator.
Import objects.

(** Host-level aborts of the Go runtime that the evaluator can reach. *)
Inductive HostAbort : Set :=
| NilDereference
| TypeAssertion
| DivideByZero
| IndexOutOfRange.

Inductive Res (A : Type) : Type :=
| Ok (a : A)
| Panic (why : HostAbort)
| OutOfFuel.
Arguments Ok {A} a.
Arguments Panic {A} why.
Arguments OutOfFuel {A}.

(** A computation over the heap of environments that may abort. *)
Definition M (A : Type) : Type := Heap -> Res (A * Heap).

Definition ret {A} (a : A) : M A := fun h => Ok (a, h).

Definition bind {A B} (c : M A) (k : A -> M B) : M B :=
  fun h =>
    match c h with
    | Ok (a, h') => k a h'
    | Panic why => Panic why
    | OutOfFuel => OutOfFuel
    end.

Definition panic {A} (why : HostAbort) : M A := fun _ => Panic why.

Notation "'do' x <- c ; k" := (bind c (fun x => k))
  (at level 10, x name, c at level 100, k at level 200).

(** [v.Type()] on an interface value: a nil receiver aborts. *)
Definition typeOf (v : Value) : M ObjectType :=
  match v with
  | Some o => ret (Type_ o)
  | None => panic NilDereference
  end.

(** [env.Get(name)], [env.Set(name, val)] and
    [objects.NewEnclosedStorage(env)] as steps on the heap; a dangling
    environment pointer aborts.  Modelled from the spec: the three methods
    are not in the available sources; binding is to "yield the bound
    value", and a child environment is allocated empty. *)
Definition env_Get (env : Env) (name : string) : M (option Value) :=
  fun h => if decide (env < length h)%nat then Ok (Get h env name, h)
           else Panic NilDereference.

Definition env_Set (env : Env) (name : string) (v : Value) : M Value :=
  fun h => if decide (env < length h)%nat then Ok (v, Set_ h env name v)
           else Panic NilDereference.

Definition newEnclosed (env : Env) : M Env :=
  fun h => Ok (length h, h ++ [NewEnclosedStorage env]).

Definition isError (obj : Value) : bool :=
  match obj with
  | Some o => bool_decide (Type_ o = ERROR_OBJ)
  | None => false
  end.

Definition isReturn (obj : Value) : bool :=
  match obj with
  | Some o => bool_decide (Type_ o = RETURN_OBJ)
  | None => false
  end.

Definition selectBoolObject (exp : bool) : Object :=
  if exp then Boolean true_obj else Boolean false_obj.

(** [value == true_obj]: equality of interface values, by address. *)
Definition is_true_obj (v : Value) : bool :=
  match v with
  | Some (Boolean true_obj) => true
  | _ => false
  end.

(** The line break and tab of the Go message literals. *)
Definition nl_tab : string :=
  String.String (Ascii.ascii_of_nat 10)
    (String.String (Ascii.ascii_of_nat 9) EmptyString).

Record Evaluator : Type := mkEvaluator {
  errors : list string;
  program : option (list ast.Node)
}.

Section Eval.

(** Rendering of values and nodes, and the loop evaluator: declared in
    files outside the available sources. *)
Variable Inspect : Object -> string.
Variable ToString : ast.Node -> string.
Variable evalForLoop : list ast.Node -> Env -> M Value.

Section Step.

(** The recursive call [e.eval]. *)
Variable eval : ast.Node -> Env -> M Value.

Definition evalBangOperator (Right : ast.Node) (env : Env) : M Value :=
  do value <- eval Right env;
  do t <- typeOf value;
  if negb (bool_decide (t = BOOL_OBJ)) then
    ret (Some (NewError
      ("Expected boolean expression for '!' operator. " +:+ nl_tab +:+ "Got: "
         +:+ from_option Inspect "" value)))
  else if is_true_obj value then ret (Some (Boolean false_obj))
  else ret (Some (Boolean true_obj)).

Definition evalMinusPrefix (Right : ast.Node) (env : Env) : M Value :=
  do value <- eval Right env;
  do t <- typeOf value;
  match value with
  | Some (Integer res) => ret (Some (Integer (wrap64 (- res))))
  | _ =>
      ret (Some (NewError
        ("Expected integer expression for '-' operator. " +:+ nl_tab +:+ "Got: "
           +:+ from_option Inspect "" value)))
  end.

Definition evalPrefix (Operator : string) (Right : ast.Node) (env : Env) : M Value :=
  if bool_decide (Operator = "!") then evalBangOperator Right env
  else if bool_decide (Operator = "-") then evalMinusPrefix Right env
  else ret (Some (NewError ("Prefix operation not supported: " +:+ Operator))).

Definition evalBooleanExpression (Left : ast.Node) (Operator : string)
    (Right : ast.Node) (env : Env) : M Value :=
  do l <- eval Left env;
  match l with
  | Some (Boolean left_) =>
      do evalRight <- eval Right env;
      do t <- typeOf evalRight;
      match evalRight with
      | Some (Boolean right_) =>
          if bool_decide (Operator = "==") then
            ret (Some (Boolean (new_Boolean
              (eqb (Boolean_Value left_) (Boolean_Value right_)))))
          else if bool_decide (Operator = "!=") then
            ret (Some (Boolean (new_Boolean
              (negb (eqb (Boolean_Value left_) (Boolean_Value right_))))))
          else ret (Some (NewError ("Not supported operator: " +:+ Operator)))
      | _ =>
          ret (Some (NewError
            ("Expected right value to be a boolean." +:+ nl_tab +:+ "Got: "
               +:+ from_option Inspect "" evalRight)))
      end
  | _ => panic TypeAssertion
  end.

Definition evalArithmeticOperations (Left : ast.Node) (Operator : string)
    (Right : ast.Node) (env : Env) : M Value :=
  do l <- eval Left env;
  match l with
  | Some (Integer left_Value) =>
      do evalRight <- eval Right env;
      do t <- typeOf evalRight;
      match evalRight with
      | Some (Integer right_Value) =>
          if bool_decide (Operator = "+") then
            ret (Some (Integer (wrap64 (left_Value + right_Value))))
          else if bool_decide (Operator = "-") then
            ret (Some (Integer (wrap64 (left_Value - right_Value))))
          else if bool_decide (Operator = "*") then
            ret (Some (Integer (wrap64 (left_Value * right_Value))))
          else if bool_decide (Operator = "/") then
            if bool_decide (right_Value = 0) then panic DivideByZero
            else ret (Some (Integer (wrap64 (Z.quot left_Value right_Value))))
          else if bool_decide (Operator = ">") then
            ret (Some (selectBoolObject (bool_decide (left_Value > right_Value))))
          else if bool_decide (Operator = "<") then
            ret (Some (selectBoolObject (bool_decide (left_Value < right_Value))))
          else if bool_decide (Operator = "==") then
            ret (Some (selectBoolObject (bool_decide (left_Value = right_Value))))
          else if bool_decide (Operator = "!=") then
            ret (Some (selectBoolObject (negb (bool_decide (left_Value = right_Value)))))
          else ret (Some (NewError ("Not supported operator: " +:+ Operator)))
      | _ =>
          ret (Some (NewError
            ("Expected right value of '" +:+ Operator
               +:+ "' to be an integer. " +:+ nl_tab +:+ "Got: "
               +:+ from_option Inspect "" evalRight)))
      end
  | _ => panic TypeAssertion
  end.

Definition evalInfix (Left : ast.Node) (Operator : string)
    (Right : ast.Node) (env : Env) : M Value :=
  do evalLeft <- eval Left env;
  do t <- typeOf evalLeft;
  match t with
  | INTEGER_OBJ => evalArithmeticOperations Left Operator Right env
  | BOOL_OBJ => evalBooleanExpression Left Operator Right env
  | _ => ret (Some (NewError ("Not supported infix operation: " +:+ Operator)))
  end.

Definition evalIfExpression (Condition Consequence : ast.Node)
    (Alternative : option ast.Node) (env : Env) : M Value :=
  do condition <- eval Condition env;
  do t <- typeOf condition;
  if negb (bool_decide (t = BOOL_OBJ)) then
    ret (Some (NewError
      ("Expected boolean expression for 'if' condition." +:+ nl_tab
         +:+ from_option Inspect "" condition)))
  else if is_true_obj condition then eval Consequence env
  else
    match Alternative with
    | Some alt => eval alt env
    | None => ret None
    end.

(** The loop of [evalExpressions]; [res] is the slice built so far. *)
Fixpoint evalExpressions_from (res : list Value) (exps : list ast.Node)
    (env : Env) : M (list Value) :=
  match exps with
  | [] => ret res
  | value :: rest =>
      do r <- eval value env;
      if isError r then ret [r]
      else evalExpressions_from (res ++ [r]) rest env
  end.

Definition evalExpressions (exps : list ast.Node) (env : Env) : M (list Value) :=
  evalExpressions_from [] exps env.

(** [for i, param := range f.Parameters { localEnv.Set(param.Value, args[i]) }] *)
Fixpoint bindParameters (i : nat) (Parameters : list string)
    (args : list Value) (localEnv : Env) : M unit :=
  match Parameters with
  | [] => ret tt
  | param :: rest =>
      match args !! i with
      | None => panic IndexOutOfRange
      | Some a =>
          do _ <- env_Set localEnv param a;
          bindParameters (S i) rest args localEnv
      end
  end.

Definition evalFunctionCall (Identifier : ast.Node) (Arguments : list ast.Node)
    (env : Env) : M Value :=
  do callee <- eval Identifier env;
  match callee with
  | Some (FunctionObject Parameters Body) =>
      if negb (bool_decide (length Arguments = length Parameters)) then
        ret (Some (NewError
          "Number of Arguments mismatch with number of Parameters"))
      else
        do args <- evalExpressions Arguments env;
        let call :=
          do localEnv <- newEnclosed env;
          do _ <- bindParameters 0 Parameters args localEnv;
          eval Body localEnv in
        match args with
        | [a] => if isError a then ret a else call
        | _ => call
        end
  | _ =>
      ret (Some (NewError
        ("Function" +:+ ToString Identifier +:+ " not found")))
  end.

(** The loop of [evalBlockStatement]; [res] is the last result so far. *)
Fixpoint evalBlockStatement_from (res : Value) (Statements : list ast.Node)
    (env : Env) : M Value :=
  match Statements with
  | [] => ret res
  | value :: rest =>
      do r <- eval value env;
      match r with
      | Some o =>
          if bool_decide (Type_ o = RETURN_OBJ) || bool_decide (Type_ o = ERROR_OBJ)
          then ret r
          else evalBlockStatement_from r rest env
      | None => evalBlockStatement_from r rest env
      end
  end.

Definition evalBlockStatement (Statements : list ast.Node) (env : Env) : M Value :=
  evalBlockStatement_from None Statements env.

(** The loop of [evalStatements]. *)
Fixpoint evalStatements_from (res : Value) (stmts : list ast.Node)
    (env : Env) : M Value :=
  match stmts with
  | [] => ret res
  | value :: rest =>
      do r <- eval value env;
      match r with
      | Some (ReturnObject v) => ret v
      | Some (ErrorObject _) => ret r
      | _ => evalStatements_from r rest env
      end
  end.

Definition evalStatements (stmts : list ast.Node) (env : Env) : M Value :=
  evalStatements_from None stmts env.

End Step.

(** [eval], by recursion on the depth of the Go call stack.  Every node
    kind has its case, so the closing "Cannot evaluate node" Error of the Go
    function is not reached from a well-formed tree. *)
Fixpoint eval (fuel : nat) (node : ast.Node) (env : Env) : M Value :=
  match fuel with
  | O => fun _ => OutOfFuel
  | S fuel' =>
      match node with
      | ast.Program Statements => evalStatements (eval fuel') Statements env
      | ast.ExpressionStatement Expression => eval fuel' Expression env
      | ast.VarStatement Identifier Value =>
          do val <- eval fuel' Value env;
          if isError val then ret val
          else env_Set env Identifier val
      | ast.Identifier Value =>
          do r <- env_Get env Value;
          match r with
          | None => ret (Some (NewError ("Cannot resolve identifier: " +:+ Value)))
          | Some val => ret val
          end
      | ast.FunctionStatement Identifier Parameters Body =>
          let f := Some (FunctionObject Parameters Body) in
          do _ <- env_Set env Identifier f;
          ret f
      | ast.AnonymousFunction Parameters Body =>
          ret (Some (FunctionObject Parameters Body))
      | ast.FunctionCall Identifier Arguments =>
          evalFunctionCall (eval fuel') Identifier Arguments env
      | ast.BlockStatement Statements =>
          evalBlockStatement (eval fuel') Statements env
      | ast.ForLoop Fields => evalForLoop Fields env
      | ast.ReturnStatement ReturnValue =>
          do val <- eval fuel' ReturnValue env;
          ret (Some (ReturnObject val))
      | ast.PrefixExpression Operator Right =>
          evalPrefix (eval fuel') Operator Right env
      | ast.InfixExpression Left Operator Right =>
          evalInfix (eval fuel') Left Operator Right env
      | ast.IfExpression Condition Consequence Alternative =>
          evalIfExpression (eval fuel') Condition Consequence Alternative env
      | ast.IntegerLiteral Value => ret (Some (Integer Value))
      | ast.Boolean Token =>
          if bool_decide (tokens.Type_ Token = tokens.TRUE)
          then ret (Some (Boolean true_obj))
          else ret (Some (Boolean false_obj))
      | ast.StringLiteral Value => ret (Some (String Value))
      end
  end.

(** [NewFromProgram]: a nil tree gives a nil evaluator; the message appended
    to the local evaluator is dropped with it. *)
Definition NewFromProgram (tree : option (list ast.Node)) : option Evaluator :=
  let eval0 := {| errors := []; program := None |} in
  match tree with
  | None =>
      let eval1 := {| errors := errors eval0 ++ ["Submited an empty(nil) ast"];
                      program := program eval0 |} in
      None
  | Some _ => Some {| errors := errors eval0; program := tree |}
  end.

(** Methods on a possibly nil [*Evaluator]. *)
Definition Errors (e : option Evaluator) : Res (list string) :=
  match e with
  | Some ev => Ok (errors ev)
  | None => Panic NilDereference
  end.

Definition HasErrors (e : option Evaluator) : Res bool :=
  match e with
  | Some ev => Ok (negb (bool_decide (length (errors ev) = 0%nat)))
  | None => Panic NilDereference
  end.

Definition EvalProgram (fuel : nat) (e : option Evaluator) (env : Env) : M Value :=
  match e with
  | Some ev =>
      match program ev with
      | Some Statements => eval fuel (ast.Program Statements) env
      | None => panic NilDereference
      end
  | None => panic NilDereference
  end.

End Eval.

Section Construct.

Variable absent : parser.Absent.

(** [NewFromInput]: [parser.NewParser] returns the address of a fresh
    parser, so its nil test never fires; a parse that recorded an error
    gives a nil evaluator, and the messages copied into the local evaluator
    are dropped with it. *)
Definition NewFromInput (fuel : nat) (input : string) : Res (option Evaluator) :=
  let eval0 := {| errors := []; program := None |} in
  let pars := parser.NewParser absent input in
  match parser.ParseProgram absent fuel pars with
  | None => OutOfFuel
  | Some (tree, pars') =>
      let eval1 := {| errors := errors eval0; program := Some tree |} in
      if parser.HasErrors pars' then
        let eval2 := {| errors := parser.Errors pars';
                        program := program eval1 |} in
        Ok None
      else Ok (Some eval1)
  end.

End Construct.

(** The outcome of a run without the heap it leaves behind. *)
Definition result {A} (r : Res (A * Heap)) : Res A :=
  match r with
  | Ok (a, _) => Ok a
  | Panic why => Panic why
  | OutOfFuel => OutOfFuel
  end.

End evaluator.

(** ** Sample programs and a concrete host

    The programs the statements below are evaluated on, written as the
    trees the parser builds for them, and one concrete choice of the
    renderers, the loop evaluator and the absent parsing routines. *)
Module samples.
Import objects evaluator.

Definition tok (t : tokens.TokenType) (lit : string) : tokens.Token :=
  tokens.mkToken t lit.

Definition TRUE : ast.Node := ast.Boolean (tok tokens.TRUE "true").
Definition FALSE : ast.Node := ast.Boolean (tok tokens.FALSE "false").
Definition INT (z : Z) : ast.Node := ast.IntegerLiteral z.
Definition ID (name : string) : ast.Node := ast.Identifier name.
Definition STMT (e : ast.Node) : ast.Node := ast.ExpressionStatement e.
Definition BLOCK (ss : list ast.Node) : ast.Node := ast.BlockStatement ss.
Definition CALL (name : string) (args : list ast.Node) : ast.Node :=
  ast.FunctionCall (ID name) args.

(** [func mk() { var y = 5; func() { y } }; var h = mk(); h()] *)
Definition returned_function : list ast.Node :=
  [ ast.FunctionStatement "mk" []
      (BLOCK [ ast.VarStatement "y" (INT 5);
               STMT (ast.AnonymousFunction [] (BLOCK [STMT (ID "y")])) ]);
    ast.VarStatement "h" (CALL "mk" []);
    STMT (CALL "h" []) ].

(** [var x = 1; func f() { x }; func g() { var x = 2; f() }; g()] *)
Definition shadowing_caller : list ast.Node :=
  [ ast.VarStatement "x" (INT 1);
    ast.FunctionStatement "f" [] (BLOCK [STMT (ID "x")]);
    ast.FunctionStatement "g" []
      (BLOCK [ ast.VarStatement "x" (INT 2); STMT (CALL "f" []) ]);
    STMT (CALL "g" []) ].

(** [{ if (true) { return 1 }; 2 }] *)
Definition early_return_body : ast.Node :=
  BLOCK [ STMT (ast.IfExpression TRUE
                  (BLOCK [ast.ReturnStatement (INT 1)]) None);
          STMT (INT 2) ].

Definition declare_f : ast.Node :=
  ast.FunctionStatement "f" [] early_return_body.

(** [func f() { if (true) { return 1 }; 2 }; f() + 1] *)
Definition call_then_add : list ast.Node :=
  [ declare_f; STMT (ast.InfixExpression (CALL "f" []) "+" (INT 1)) ].

(** [func f() { if (true) { return 1 }; 2 }; f(); 5] *)
Definition call_then_five : list ast.Node :=
  [ declare_f; STMT (CALL "f" []); STMT (INT 5) ].

(** [true == true] *)
Definition true_eq_true : ast.Node := ast.InfixExpression TRUE "==" TRUE.

(** [if (true == true) { 1 } else { 2 }] *)
Definition if_true_eq_true : ast.Node :=
  ast.IfExpression true_eq_true (BLOCK [STMT (INT 1)])
    (Some (BLOCK [STMT (INT 2)])).

(** [x + 1], [return x] and [1 / 0] *)
Definition x_plus_one : ast.Node := ast.InfixExpression (ID "x") "+" (INT 1).
Definition return_x : ast.Node := ast.ReturnStatement (ID "x").
Definition one_by_zero : ast.Node := ast.InfixExpression (INT 1) "/" (INT 0).

(** The token streams of [1 + 2 * 3], [(1 + 2) * 3] and [8 - 4 - 2]. *)
Definition sum_product : list tokens.Token :=
  [ tok tokens.NUMBER "1"; tok tokens.PLUS "+"; tok tokens.NUMBER "2";
    tok tokens.ASTERISC "*"; tok tokens.NUMBER "3" ].

Definition grouped_sum_product : list tokens.Token :=
  [ tok tokens.LPAR "("; tok tokens.NUMBER "1"; tok tokens.PLUS "+";
    tok tokens.NUMBER "2"; tok tokens.RPAR ")"; tok tokens.ASTERISC "*";
    tok tokens.NUMBER "3" ].

Definition two_minus : list tokens.Token :=
  [ tok tokens.NUMBER "8"; tok tokens.MINUS "-"; tok tokens.NUMBER "4";
    tok tokens.MINUS "-"; tok tokens.NUMBER "2" ].

(** A concrete host: values and nodes render as their kind only, loops
    and the absent parsing routines yield nothing. *)
Definition Inspect0 (o : Object) : string :=
  match Type_ o with
  | INTEGER_OBJ => "integer"
  | BOOL_OBJ => "boolean"
  | STRING_OBJ => "string"
  | FUNCTION_OBJ => "function"
  | RETURN_OBJ => "return"
  | ERROR_OBJ => "error"
  end.

Definition ToString0 (n : ast.Node) : string := "node".

Definition evalForLoop0 (Fields : list ast.Node) (env : Env) : M Value :=
  ret None.

Definition absent0 : parser.Absent :=
  {| parser.NewLexer := fun _ => [];
     parser.parseIfExpression := fun p => Some (None, p);
     parser.parseAnonnymousFunction := fun p => Some (None, p);
     parser.parseForLoop := fun p => Some (None, p);
     parser.parseCall := fun _ p => Some (None, p);
     parser.parseVarStatement := fun p => Some (None, p);
     parser.parseReturnStatement := fun p => Some (None, p);
     parser.parseFunctionStatement := fun p => Some (None, p);
     parser.parseExpressionStatement := fun p => Some (None, p) |}.

Definition eval0 : nat -> ast.Node -> Env -> M Value :=
  eval Inspect0 ToString0 evalForLoop0.

(** Parsing one expression off a token stream: the node and the errors
    recorded. *)
Definition parseTokens (absent : parser.Absent) (toks : list tokens.Token)
    : option (option ast.Node * list string) :=
  match parser.parseExpression absent 10 parser.LOWEST
          (parser.NewParserFromLexer toks) with
  | Some (exp, p) => Some (exp, parser.Errors p)
  | None => None
  end.

(** A second host for the parser: its lexer knows the one-token input [+],
    and an expression statement is the expression parsed at LOWEST. *)
Definition absent1 : parser.Absent :=
  {| parser.NewLexer := fun input =>
       if bool_decide (input = "+") then [tok tokens.PLUS "+"] else [];
     parser.parseIfExpression := fun p => Some (None, p);
     parser.parseAnonnymousFunction := fun p => Some (None, p);
     parser.parseForLoop := fun p => Some (None, p);
     parser.parseCall := fun _ p => Some (None, p);
     parser.parseVarStatement := fun p => Some (None, p);
     parser.parseReturnStatement := fun p => Some (None, p);
     parser.parseFunctionStatement := fun p => Some (None, p);
     parser.parseExpressionStatement := fun p =>
       match parser.parseExpression absent0 5 parser.LOWEST p with
       | Some (Some e, p') => Some (Some (ast.ExpressionStatement e), p')
       | Some (None, p') => Some (None, p')
       | None => None
       end |}.

End samples.

(** ** Environment chains

    What an evaluation can see of the heap: the stores on the parent chain
    of its environment, innermost first.  Parents are allocated before their
    children, so addresses decrease along a chain. *)
Module frames.
Import objects evaluator.

Fixpoint chain (fs : list (gmap string Value)) (h : Heap) (e : Env) : Prop :=
  match fs with
  | [] => False
  | s :: rest =>
      exists o, h !! e = Some {| store := s; outer := o |} /\
        match o with
        | None => rest = []
        | Some p => (p < e)%nat /\ chain rest h p
        end
  end.

Fixpoint lookup_frames (fs : list (gmap string Value)) (name : string)
    : option Value :=
  match fs with
  | [] => None
  | s :: rest =>
      match s !! name with
      | Some v => Some v
      | None => lookup_frames rest name
      end
  end.

(** Positional binding of parameters, later duplicates overwriting. *)
Fixpoint bindings (acc : gmap string Value) (Parameters : list string)
    (args : list Value) : gmap string Value :=
  match Parameters, args with
  | param :: ps, a :: rest => bindings (<[param := a]> acc) ps rest
  | _, _ => acc
  end.

(** Values whose functions have loop-free bodies. *)
Fixpoint good_obj (o : Object) : bool :=
  match o with
  | FunctionObject _ Body => ast.loop_free Body
  | ReturnObject (Some v) => good_obj v
  | _ => true
  end.

Definition good_val (v : Value) : Prop :=
  match v with
  | Some o => good_obj o = true
  | None => True
  end.

Definition good_store (s : gmap string Value) : Prop :=
  map_Forall (fun _ v => good_val v) s.

(** Two heaps that show the same chain of stores to their environments. *)
Definition related (s : gmap string Value) (tl : list (gmap string Value))
    (e1 : Env) (h1 : Heap) (e2 : Env) (h2 : Heap) : Prop :=
  chain (s :: tl) h1 e1 /\ chain (s :: tl) h2 e2 /\
  good_store s /\ Forall good_store tl.

(** A step started in [e] only writes to [e] and to fresh addresses. *)
Definition extends (e : Env) (h h' : Heap) : Prop :=
  (length h <= length h')%nat /\
  forall a, (a < length h)%nat -> a <> e -> h' !! a = h !! a.

(** Two runs agree: same abort, or same value and related heaps again. *)
Definition simulate {A} (tl : list (gmap string Value))
    (e1 : Env) (h1 : Heap) (e2 : Env) (h2 : Heap) (good : A -> Prop)
    (r1 r2 : Res (A * Heap)) : Prop :=
  match r1, r2 with
  | Ok (a1, h1'), Ok (a2, h2') =>
      a1 = a2 /\ good a1 /\ extends e1 h1 h1' /\ extends e2 h2 h2' /\
      exists s', related s' tl e1 h1' e2 h2'
  | Panic w1, Panic w2 => w1 = w2
  | OutOfFuel, OutOfFuel => True
  | _, _ => False
  end.

(** An evaluator whose runs on a node agree from related heaps. *)
Definition agrees (ev : ast.Node -> Env -> M Value) (n : ast.Node) : Prop :=
  forall s tl e1 (h1 : Heap) e2 (h2 : Heap),
    related s tl e1 h1 e2 h2 ->
    simulate tl e1 h1 e2 h2 good_val (ev n e1 h1) (ev n e2 h2).

End frames.

(** ** Invariants of a run

    What one run keeps true of the heap it works on, and the shapes of
    program used to state how control leaves nested blocks. *)
Module invariants.
Import objects evaluator.

(** The range of a Go [int64]. *)
Definition int64 (z : Z) : Prop := - 2 ^ 63 <= z < 2 ^ 63.

(** A value bound to some name in some environment of the heap. *)
Definition stored (h : Heap) (v : Value) : Prop :=
  exists a s name, h !! a = Some s /\ store s !! name = Some v.

(** Every bound value is no Error, and its functions have loop-free
    bodies. *)
Definition heap_ok (h : Heap) : Prop :=
  forall v, stored h v -> frames.good_val v /\ isError v = false.

(** The list that [evalExpressions] hands back for [n] expressions: one
    Error alone, or [n] values none of which is an Error. *)
Definition arguments_shape (n : nat) (args : list Value) : Prop :=
  (exists r, args = [r] /\ isError r = true) \/
  (length args = n /\ Forall (fun a => isError a = false) args).

(** The outcome of a step started in [env] on [h]: a good result on a heap
    that is still in order and differs from [h] only at [env] and at fresh
    addresses, or an abort that is not an index out of range. *)
Definition keeps {A} (env : Env) (h : Heap) (good : A -> Prop)
    (r : Res (A * Heap)) : Prop :=
  match r with
  | Ok (a, h') => good a /\ heap_ok h' /\ frames.extends env h h'
  | Panic why => why <> IndexOutOfRange
  | OutOfFuel => True
  end.

(** A value that ends a block: a Return-signal or an Error. *)
Definition is_signal (o : Object) : bool :=
  bool_decide (Type_ o = RETURN_OBJ) || bool_decide (Type_ o = ERROR_OBJ).

(** [stmt] wrapped [k] times in [{ if (true) { ... }; rest }]. *)
Fixpoint nest (k : nat) (stmt : ast.Node) (rest : list ast.Node) : ast.Node :=
  match k with
  | O => stmt
  | S k' =>
      ast.BlockStatement
        (ast.ExpressionStatement
           (ast.IfExpression (samples.TRUE) (nest k' stmt rest) None) :: rest)
  end.

(** The truth value an integer comparison operator computes. *)
Definition comparison (Operator : string) (a b : Z) : option bool :=
  if bool_decide (Operator = ">") then Some (bool_decide (a > b))
  else if bool_decide (Operator = "<") then Some (bool_decide (a < b))
  else if bool_decide (Operator = "==") then Some (bool_decide (a = b))
  else if bool_decide (Operator = "!=") then Some (negb (bool_decide (a = b)))
  else None.

(** The token kinds registered with [parseInfixExpression]. *)
Definition binary_operator (t : tokens.TokenType) : bool :=
  match t with
  | tokens.MINUS | tokens.PLUS | tokens.SLASH | tokens.ASTERISC
  | tokens.GT | tokens.LT | tokens.EQUALS | tokens.NOTEQUAL => true
  | _ => false
  end.

(** A parsing step that only adds to the error list. *)
Definition keeps_errors {A} (c : parser.P A) : Prop :=
  forall p a p', c p = Some (a, p') ->
    exists more, parser.errors p' = parser.errors p ++ more.

Definition keeps_errors_infix (c : parser.infixFn) : Prop :=
  forall left_exp, keeps_errors (c left_exp).

(** The absent parsing routines only add to the error list. *)
Definition absent_keeps_errors (absent : parser.Absent) : Prop :=
  keeps_errors (parser.parseIfExpression absent) /\
  keeps_errors (parser.parseAnonnymousFunction absent) /\
  keeps_errors (parser.parseForLoop absent) /\
  keeps_errors_infix (parser.parseCall absent) /\
  keeps_errors (parser.parseVarStatement absent) /\
  keeps_errors (parser.parseReturnStatement absent) /\
  keeps_errors (parser.parseFunctionStatement absent) /\
  keeps_errors (parser.parseExpressionStatement absent).

End invariants.

(** * Properties *)

Import objects evaluator samples.

(** ** Evaluation of the sample programs, for any renderers and loops *)
Section Concrete.

Variable Inspect : Object -> string.
Variable ToString : ast.Node -> string.
Variable evalForLoop : list ast.Node -> Env -> M Value.

Let run := eval Inspect ToString evalForLoop.

(** C2: a return nested in a conditional does end the body of [f] (the
    trailing [2] is not reached), but the call expression [f()] evaluates to
    the Return-signal itself, not to the carried [1]: [f() + 1] is an Error,
    and a top-level [f(); 5] ends the program with [1]. *)
Theorem call_yields_return_signal :
  result (run 10 (CALL "f" []) 0%nat
            (Set_ [NewStorage] 0%nat "f" (Some (FunctionObject [] early_return_body))))
    = Ok (Some (ReturnObject (Some (Integer 1)))) /\
  result (run 10 (ast.Program call_then_add) 0%nat [NewStorage])
    = Ok (Some (ErrorObject "Not supported infix operation: +")) /\
  result (run 10 (ast.Program call_then_five) 0%nat [NewStorage])
    = Ok (Some (Integer 1)).
Proof. repeat split; vm_compute; reflexivity. Qed.

(** C3: [true == true] evaluates to a freshly allocated Boolean, which is
    neither of the two canonical instances; compared by address, its
    negation [!(true == true)] is the canonical true. *)
Theorem boolean_equality_not_canonical (env : Env) (h : Heap) :
  run 5 true_eq_true env h = Ok (Some (Boolean (new_Boolean true)), h) /\
  new_Boolean true <> true_obj /\ new_Boolean true <> false_obj /\
  run 6 (ast.PrefixExpression "!" true_eq_true) env h
    = Ok (Some (Boolean true_obj), h).
Proof. repeat split; try discriminate; reflexivity. Qed.

(** C4: the condition [true == true] evaluates to a Boolean of value true,
    and the conditional yields its alternative [2], not its consequence. *)
Theorem if_true_condition_takes_alternative (env : Env) (h : Heap) :
  run 5 true_eq_true env h = Ok (Some (Boolean (new_Boolean true)), h) /\
  Boolean_Value (new_Boolean true) = true /\
  run 8 if_true_eq_true env h = Ok (Some (Integer 2), h).
Proof. repeat split; reflexivity. Qed.

(** C5: the left operand [x] of [x + 1] evaluates to the Error "Cannot
    resolve identifier: x"; the infix expression yields another Error, with
    the message "Not supported infix operation: +". *)
Theorem infix_replaces_left_error :
  run 5 (ID "x") 0%nat [NewStorage]
    = Ok (Some (ErrorObject "Cannot resolve identifier: x"), [NewStorage]) /\
  run 5 x_plus_one 0%nat [NewStorage]
    = Ok (Some (ErrorObject "Not supported infix operation: +"), [NewStorage]).
Proof. split; vm_compute; reflexivity. Qed.

(** C6: [return x] with [x] unbound evaluates to a Return-signal that
    carries the Error of its operand. *)
Theorem return_wraps_error :
  run 5 return_x 0%nat [NewStorage]
    = Ok (Some (ReturnObject
                  (Some (ErrorObject "Cannot resolve identifier: x"))),
          [NewStorage]).
Proof. vm_compute; reflexivity. Qed.

End Concrete.

(** ** Function calls and division, in general *)
Section General.

Variable Inspect : Object -> string.
Variable ToString : ast.Node -> string.
Variable evalForLoop : list ast.Node -> Env -> M Value.

Let run := eval Inspect ToString evalForLoop.

Lemma alter_last {A} (f : A -> A) (l : list A) (x : A) :
  alter f (length l) (l ++ [x]) = l ++ [f x].
Proof. induction l as [|y l IH]; [reflexivity | cbn; f_equal; exact IH]. Qed.

Lemma bindParameters_last Parameters : forall args i (h : Heap) s o,
  (length Parameters + i <= length args)%nat ->
  bindParameters i Parameters args (length h)
      (h ++ [{| store := s; outer := o |}])
    = Ok (tt, h ++ [{| store := frames.bindings s Parameters (drop i args);
                       outer := o |}]).
Proof.
  induction Parameters as [|param ps IH]; intros args i h s o Hlen; simpl.
  - destruct (drop i args); reflexivity.
  - simpl in Hlen.
    destruct (args !! i) as [a|] eqn:Ha.
    2:{ apply lookup_ge_None in Ha. lia. }
    rewrite (drop_S _ _ _ Ha). simpl.
    unfold bind, env_Set. rewrite length_app. simpl.
    destruct (decide (length h < length h + 1)%nat) as [_|Hn]; [|lia].
    unfold Set_. rewrite alter_last. unfold bind_name. simpl.
    apply IH. lia.
Qed.

Lemma evalExpressions_from_length ev exps : forall res env (h : Heap) args h',
  evalExpressions_from ev res exps env h = Ok (args, h') ->
  Forall (fun a => isError a = false) args ->
  length args = (length res + length exps)%nat.
Proof.
  induction exps as [|x exps IH]; intros res env h args h' Hev Hok; simpl in *.
  - inversion Hev; subst. lia.
  - unfold bind in Hev. destruct (ev x env h) as [[r h1]| |]; try discriminate.
    destruct (isError r) eqn:Hr.
    + inversion Hev; subst. inversion Hok; subst. congruence.
    + apply IH in Hev; [|assumption]. rewrite length_app in Hev. simpl in Hev. lia.
Qed.

(** The last three steps of [evalFunctionCall]: allocate the child of
    [env], bind the parameters in it, evaluate the body there. *)
Lemma enclosed_call fuel env Parameters Body args (h2 : Heap) :
  length args = length Parameters ->
  (do localEnv <- newEnclosed env;
   do _ <- bindParameters 0 Parameters args localEnv;
   run fuel Body localEnv) h2
  = run fuel Body (length h2)
      (h2 ++ [{| store := frames.bindings ∅ Parameters args;
                 outer := Some env |}]).
Proof.
  intros Hn. unfold bind at 1. unfold newEnclosed, NewEnclosedStorage.
  unfold bind. rewrite bindParameters_last by lia.
  rewrite drop_0. reflexivity.
Qed.

Lemma evalExpressions_length ev Arguments env (h : Heap) args h' :
  evalExpressions ev Arguments env h = Ok (args, h') ->
  Forall (fun a => isError a = false) args ->
  length args = length Arguments.
Proof.
  intros Hargs Hok. unfold evalExpressions in Hargs.
  apply evalExpressions_from_length in Hargs; [|assumption].
  simpl in Hargs. lia.
Qed.

(** C1, as amended: a call whose callee evaluates to a Function with as
    many parameters as there are arguments, and whose arguments evaluate
    without an Error, evaluates the body in one new environment, allocated
    at the end of the heap, whose parent is the environment of the call
    site and whose store binds the parameters positionally. *)
Theorem call_runs_body_in_child_of_caller
    fuel Identifier Arguments env (h : Heap) Parameters Body h1 args h2 :
  run fuel Identifier env h = Ok (Some (FunctionObject Parameters Body), h1) ->
  length Arguments = length Parameters ->
  evalExpressions (run fuel) Arguments env h1 = Ok (args, h2) ->
  Forall (fun a => isError a = false) args ->
  run (S fuel) (ast.FunctionCall Identifier Arguments) env h
    = run fuel Body (length h2)
        (h2 ++ [{| store := frames.bindings ∅ Parameters args;
                   outer := Some env |}]).
Proof.
  intros Hf Hlen Hargs Hok.
  pose proof (evalExpressions_length _ _ _ _ _ _ Hargs Hok) as Hn.
  pose proof (enclosed_call fuel env Parameters Body args h2) as Hcall.
  subst run. cbn [eval]. unfold evalFunctionCall.
  unfold bind at 1. rewrite Hf.
  rewrite bool_decide_eq_true_2 by assumption. cbn [negb].
  unfold bind at 1. rewrite Hargs.
  destruct args as [|a [|b rest]]; try (apply Hcall; lia).
  inversion Hok as [|? ? Ha _]; subst. rewrite Ha. apply Hcall. simpl in *. lia.
Qed.

(** C7, as amended: integer division is unguarded.  When both operands
    evaluate to Integers (the left one is evaluated a second time by the
    arithmetic path), a zero right operand aborts with the host's
    divide-by-zero panic, and a nonzero one produces the quotient truncated
    toward zero, wrapped to 64 bits. *)
Theorem integer_division_outcome
    fuel Left Right env (h : Heap) a h1 a' h2 b h3 :
  run fuel Left env h = Ok (Some (Integer a), h1) ->
  run fuel Left env h1 = Ok (Some (Integer a'), h2) ->
  run fuel Right env h2 = Ok (Some (Integer b), h3) ->
  run (S fuel) (ast.InfixExpression Left "/" Right) env h
    = if bool_decide (b = 0) then Panic DivideByZero
      else Ok (Some (Integer (wrap64 (Z.quot a' b))), h3).
Proof.
  intros H1 H2 H3. subst run. cbn [eval]. unfold evalInfix.
  unfold bind at 1. rewrite H1. cbn.
  unfold evalArithmeticOperations. unfold bind at 1. rewrite H2.
  unfold bind at 1. rewrite H3. cbn.
  destruct (bool_decide (b = 0)); reflexivity.
Qed.

(** What the evaluator does in general at the places the sample programs
    exercise. *)

(** A left operand that evaluates to an Error: the right operand is not
    evaluated, and the result is a new Error about the operator. *)
Lemma infix_left_error fuel Left Operator Right env (h : Heap) m h1 :
  run fuel Left env h = Ok (Some (ErrorObject m), h1) ->
  run (S fuel) (ast.InfixExpression Left Operator Right) env h
    = Ok (Some (ErrorObject ("Not supported infix operation: " +:+ Operator)),
          h1).
Proof.
  intros H. subst run. cbn [eval]. unfold evalInfix.
  unfold bind at 1. rewrite H. reflexivity.
Qed.


(** A block stops at the first statement that yields a Return-signal or an
    Error and hands that value back unchanged. *)
Lemma block_stops_at_signal fuel value rest env (h : Heap) o h1 res :
  run fuel value env h = Ok (Some o, h1) ->
  Type_ o = RETURN_OBJ \/ Type_ o = ERROR_OBJ ->
  evalBlockStatement_from (run fuel) res (value :: rest) env h
    = Ok (Some o, h1).
Proof.
  intros H Ho. cbn [evalBlockStatement_from]. unfold bind. rewrite H.
  destruct Ho as [-> | ->]; reflexivity.
Qed.

(** Integer comparisons select one of the two static Booleans. *)
Lemma selectBoolObject_static exp :
  selectBoolObject exp = Boolean true_obj \/
  selectBoolObject exp = Boolean false_obj.
Proof. destruct exp; [left | right]; reflexivity. Qed.

(** The conditional on a condition that evaluates to a Boolean: the
    consequence runs exactly when the Boolean is the static [true_obj]. *)
Lemma if_on_boolean fuel Condition Consequence Alternative env (h : Heap) p h1 :
  run fuel Condition env h = Ok (Some (Boolean p), h1) ->
  run (S fuel) (ast.IfExpression Condition Consequence Alternative) env h
    = match p, Alternative with
      | true_obj, _ => run fuel Consequence env h1
      | _, Some alt => run fuel alt env h1
      | _, None => Ok (None, h1)
      end.
Proof.
  intros H. subst run. cbn [eval]. unfold evalIfExpression.
  unfold bind at 1. rewrite H. cbn.
  destruct p, Alternative; reflexivity.
Qed.

(** The conditional on a condition of another kind yields an Error. *)
Lemma if_on_other_kind fuel Condition Consequence Alternative env (h : Heap)
    o h1 :
  run fuel Condition env h = Ok (Some o, h1) ->
  Type_ o <> BOOL_OBJ ->
  run (S fuel) (ast.IfExpression Condition Consequence Alternative) env h
    = Ok (Some (ErrorObject
                  ("Expected boolean expression for 'if' condition."
                     +:+ nl_tab +:+ Inspect o)), h1).
Proof.
  intros H Ho. subst run. cbn [eval]. unfold evalIfExpression.
  unfold bind at 1. rewrite H. cbn.
  rewrite bool_decide_eq_false_2 by exact Ho. reflexivity.
Qed.

End General.

(** ** Closed instances on the concrete host *)

(** C1, counterexample: the anonymous function is declared in the
    environment of the call [mk()], at address 1, where [y] is bound to 5.
    The call [h()] allocates its environment at address 2 with the global
    environment, where the call is made, as its parent: [y] does not
    resolve and the program yields an Error instead of 5. *)
Lemma returned_function_loses_scope :
  exists h',
    eval0 10 (ast.Program returned_function) 0%nat [NewStorage]
      = Ok (Some (ErrorObject "Cannot resolve identifier: y"), h') /\
    Get h' 1%nat "y" = Some (Some (Integer 5)) /\
    outer <$> h' !! 2%nat = Some (Some 0%nat).
Proof.
  eexists. split; [vm_compute; reflexivity|].
  split; vm_compute; reflexivity.
Qed.

(** The free identifier of a function resolves at the call site: [f], called
    from [g], reads the [x] that [g] binds. *)
Lemma free_identifier_resolves_at_call_site :
  result (eval0 10 (ast.Program shadowing_caller) 0%nat [NewStorage])
    = Ok (Some (Integer 2)).
Proof. vm_compute; reflexivity. Qed.

Lemma call_runs_body_in_child_of_caller_witness :
  let h := Set_ [NewStorage] 0%nat "f"
             (Some (FunctionObject ["a"] (BLOCK [STMT (ID "a")]))) in
  eval0 6 (CALL "f" [INT 3]) 0%nat h
    = eval0 5 (BLOCK [STMT (ID "a")]) 1%nat
        (h ++ [{| store := frames.bindings ∅ ["a"] [Some (Integer 3)];
                  outer := Some 0%nat |}]).
Proof.
  intros h.
  apply (call_runs_body_in_child_of_caller Inspect0 ToString0 evalForLoop0
           5 (ID "f") [INT 3] 0%nat h ["a"] (BLOCK [STMT (ID "a")]) h
           [Some (Integer 3)] h).
  - vm_compute; reflexivity.
  - reflexivity.
  - vm_compute; reflexivity.
  - repeat constructor.
Defined.

(** C7, counterexample: [1 / 0] aborts with the host's divide-by-zero
    panic; no amount of fuel makes it produce a runtime value. *)
Lemma division_by_zero_panics :
  result (eval0 5 one_by_zero 0%nat [NewStorage]) = Panic DivideByZero /\
  ~ (exists fuel v h',
       eval0 fuel one_by_zero 0%nat [NewStorage] = Ok (v, h')).
Proof.
  split; [vm_compute; reflexivity|].
  intros (fuel & v & h' & H).
  destruct fuel as [|[|fuel]]; vm_compute in H; discriminate H.
Qed.

Lemma integer_division_outcome_witness :
  eval0 3 (ast.InfixExpression (INT 7) "/" (INT (-2))) 0%nat [NewStorage]
    = Ok (Some (Integer (wrap64 (Z.quot 7 (-2)))), [NewStorage]).
Proof.
  apply (integer_division_outcome Inspect0 ToString0 evalForLoop0
           2 (INT 7) (INT (-2)) 0%nat [NewStorage]
           7 [NewStorage] 7 [NewStorage] (-2) [NewStorage]);
    reflexivity.
Defined.

(** ** Parsing, and construction of an evaluator *)
Section Pipeline.

Variable absent : parser.Absent.
Variable Inspect : Object -> string.
Variable ToString : ast.Node -> string.
Variable evalForLoop : list ast.Node -> Env -> M Value.

Let run := eval Inspect ToString evalForLoop.
(** C8: [1 + 2 * 3] parses to [1 + (2 * 3)] and evaluates to 7,
    [(1 + 2) * 3] parses to the product of the sum and evaluates to 9, and
    [8 - 4 - 2] parses to [(8 - 4) - 2] and evaluates to 2; no parse error
    is recorded. *)
Theorem precedence_and_left_association :
  parseTokens absent sum_product
    = Some (Some (ast.InfixExpression (INT 1) "+"
                    (ast.InfixExpression (INT 2) "*" (INT 3))), []) /\
  parseTokens absent grouped_sum_product
    = Some (Some (ast.InfixExpression
                    (ast.InfixExpression (INT 1) "+" (INT 2))
                    "*" (INT 3)), []) /\
  parseTokens absent two_minus
    = Some (Some (ast.InfixExpression
                    (ast.InfixExpression (INT 8) "-" (INT 4))
                    "-" (INT 2)), []) /\
  forall env (h : Heap),
    run 10 (ast.InfixExpression (INT 1) "+"
              (ast.InfixExpression (INT 2) "*" (INT 3))) env h
      = Ok (Some (Integer 7), h) /\
    run 10 (ast.InfixExpression
              (ast.InfixExpression (INT 1) "+" (INT 2)) "*" (INT 3)) env h
      = Ok (Some (Integer 9), h) /\
    run 10 (ast.InfixExpression
              (ast.InfixExpression (INT 8) "-" (INT 4)) "-" (INT 2)) env h
      = Ok (Some (Integer 2), h).
Proof.
  split; [vm_compute; reflexivity|].
  split; [vm_compute; reflexivity|].
  split; [vm_compute; reflexivity|].
  intros env h. repeat split; vm_compute; reflexivity.
Qed.

(** C10: a parse that recorded an error makes [NewFromInput] return a nil
    evaluator, and so does a nil tree for [NewFromProgram]; [Errors] and
    [HasErrors] abort on a nil evaluator, and every evaluator that a
    constructor does return has an empty error list. *)
Theorem failed_construction_is_nil fuel input tree p :
  parser.ParseProgram absent fuel (parser.NewParser absent input)
    = Some (tree, p) ->
  NewFromInput absent fuel input
    = Ok (if parser.HasErrors p then None
          else Some {| errors := []; program := Some tree |}) /\
  NewFromProgram None = None /\
  Errors None = Panic NilDereference /\
  HasErrors None = Panic NilDereference /\
  (forall t e, NewFromProgram t = Some e -> errors e = []) /\
  (forall fuel' input' e,
     NewFromInput absent fuel' input' = Ok (Some e) -> errors e = []).
Proof.
  intros Hparse. repeat split.
  - unfold NewFromInput. rewrite Hparse.
    destruct (parser.HasErrors p); reflexivity.
  - intros [t|] e H; inversion H; reflexivity.
  - intros fuel' input' e H. unfold NewFromInput in H.
    destruct (parser.ParseProgram absent fuel' (parser.NewParser absent input'))
      as [[t q]|]; [|discriminate].
    destruct (parser.HasErrors q); inversion H; reflexivity.
Qed.

End Pipeline.

Lemma failed_construction_is_nil_witness :
  NewFromInput absent1 5 "+" = Ok None.
Proof.
  apply (failed_construction_is_nil absent1 5 "+" []
           (parser.addError "Not prefixFn found for: +"
              (parser.advanceToken (parser.NewParser absent1 "+")))).
  vm_compute; reflexivity.
Defined.

(** ** Runs in fresh environments *)
Section Determinism.
Import frames.

Variable Inspect : Object -> string.
Variable ToString : ast.Node -> string.
Variable evalForLoop : list ast.Node -> Env -> M Value.

Lemma chain_lt s tl (h : Heap) e : chain (s :: tl) h e -> (e < length h)%nat.
Proof. intros (o & Hl & _). eapply lookup_lt_Some; exact Hl. Qed.

Lemma chain_agree fs : forall (h h' : Heap) e,
  chain fs h e ->
  (forall a, (a <= e)%nat -> h' !! a = h !! a) ->
  chain fs h' e.
Proof.
  induction fs as [|s rest IH]; intros h h' e Hc Hag; [exact Hc|].
  destruct Hc as (o & Hl & Ho). exists o. split.
  - rewrite Hag by lia. exact Hl.
  - destruct o as [p|]; [|exact Ho].
    destruct Ho as [Hlt Hc]. split; [exact Hlt|].
    apply (IH h); [exact Hc|]. intros a Ha. apply Hag. lia.
Qed.

Lemma Get_chain_frames fs : forall n (h : Heap) e name,
  chain fs h e -> (e < n)%nat ->
  Get_chain n h e name = lookup_frames fs name.
Proof.
  induction fs as [|s rest IH]; intros n h e name Hc Hn; [destruct Hc|].
  destruct Hc as (o & Hl & Ho).
  destruct n as [|n]; [lia|]. simpl. rewrite Hl. simpl.
  destruct (s !! name); [reflexivity|].
  destruct o as [p|].
  - destruct Ho as [Hlt Hc]. apply IH; [exact Hc | lia].
  - subst rest. reflexivity.
Qed.

Lemma lookup_frames_good fs name v :
  Forall good_store fs -> lookup_frames fs name = Some v -> good_val v.
Proof.
  induction 1 as [|s rest Hs _ IH]; simpl; [discriminate|].
  destruct (s !! name) as [w|] eqn:Hw; [|exact IH].
  intros [= <-]. exact (Hs _ _ Hw).
Qed.

Lemma extends_refl e (h : Heap) : extends e h h.
Proof. split; [lia | reflexivity]. Qed.

Lemma extends_trans e (h h' h'' : Heap) :
  extends e h h' -> extends e h' h'' -> extends e h h''.
Proof.
  intros [L1 A1] [L2 A2]. split; [lia|].
  intros a Ha Hne. rewrite A2 by (lia || assumption). apply A1; assumption.
Qed.

Lemma simulate_rebase {A} tl e1 (h1 h1' : Heap) e2 (h2 h2' : Heap)
    (good : A -> Prop) r1 r2 :
  extends e1 h1 h1' -> extends e2 h2 h2' ->
  simulate tl e1 h1' e2 h2' good r1 r2 ->
  simulate tl e1 h1 e2 h2 good r1 r2.
Proof.
  intros X1 X2. unfold simulate.
  destruct r1 as [[a1 k1]| |], r2 as [[a2 k2]| |]; try exact (fun H => H).
  intros (Ha & Hg & Y1 & Y2 & Hr). repeat split; try assumption.
  - exact (proj1 (extends_trans _ _ _ _ X1 Y1)).
  - exact (proj2 (extends_trans _ _ _ _ X1 Y1)).
  - exact (proj1 (extends_trans _ _ _ _ X2 Y2)).
  - exact (proj2 (extends_trans _ _ _ _ X2 Y2)).
Qed.

Lemma sim_ret {A} (good : A -> Prop) a s tl e1 (h1 : Heap) e2 (h2 : Heap) :
  related s tl e1 h1 e2 h2 -> good a ->
  simulate tl e1 h1 e2 h2 good (ret a h1) (ret a h2).
Proof.
  intros Hr Hg. simpl. repeat split; try assumption; try lia.
  exists s. exact Hr.
Qed.

Lemma sim_panic {A} (good : A -> Prop) why tl e1 (h1 : Heap) e2 (h2 : Heap) :
  simulate tl e1 h1 e2 h2 good (panic why h1) (panic why h2).
Proof. reflexivity. Qed.

Lemma sim_bind {A B} (gA : A -> Prop) (gB : B -> Prop)
    tl e1 (h1 : Heap) e2 (h2 : Heap) (c1 c2 : M A) (k1 k2 : A -> M B) :
  simulate tl e1 h1 e2 h2 gA (c1 h1) (c2 h2) ->
  (forall a h1' h2' s', gA a -> related s' tl e1 h1' e2 h2' ->
     simulate tl e1 h1' e2 h2' gB (k1 a h1') (k2 a h2')) ->
  simulate tl e1 h1 e2 h2 gB (bind c1 k1 h1) (bind c2 k2 h2).
Proof.
  intros Hc Hk. unfold bind.
  destruct (c1 h1) as [[a1 h1']| |], (c2 h2) as [[a2 h2']| |];
    simpl in Hc; try contradiction; try exact Hc.
  destruct Hc as (<- & Hg & X1 & X2 & s' & Hr).
  eapply simulate_rebase; [exact X1 | exact X2 |].
  eapply Hk; eassumption.
Qed.

Lemma sim_typeOf v s tl e1 (h1 : Heap) e2 (h2 : Heap) :
  related s tl e1 h1 e2 h2 ->
  simulate tl e1 h1 e2 h2 (fun _ => True) (typeOf v h1) (typeOf v h2).
Proof.
  intros Hr. destruct v; [eapply sim_ret; eauto | apply sim_panic].
Qed.

Lemma sim_Get name s tl e1 (h1 : Heap) e2 (h2 : Heap) :
  related s tl e1 h1 e2 h2 ->
  simulate tl e1 h1 e2 h2
    (fun r => match r with Some v => good_val v | None => True end)
    (env_Get e1 name h1) (env_Get e2 name h2).
Proof.
  intros Hr. pose proof Hr as (C1 & C2 & G1 & G2).
  pose proof (chain_lt _ _ _ _ C1) as L1.
  pose proof (chain_lt _ _ _ _ C2) as L2.
  unfold env_Get.
  destruct (decide (e1 < length h1)%nat); [|lia].
  destruct (decide (e2 < length h2)%nat); [|lia].
  unfold Get.
  rewrite (Get_chain_frames _ _ _ _ name C1 L1).
  rewrite (Get_chain_frames _ _ _ _ name C2 L2).
  assert (Hg : match lookup_frames (s :: tl) name with
               | Some v => good_val v
               | None => True
               end).
  { destruct (lookup_frames (s :: tl) name) as [v|] eqn:Hv; [|exact I].
    eapply lookup_frames_good; [|exact Hv]. constructor; assumption. }
  unfold simulate. split; [reflexivity|]. split; [exact Hg|].
  split; [apply extends_refl|]. split; [apply extends_refl|].
  exists s. exact Hr.
Qed.

Lemma chain_Set name v s tl (h : Heap) e :
  chain (s :: tl) h e ->
  chain (<[name := v]> s :: tl) (Set_ h e name v) e /\
  extends e h (Set_ h e name v).
Proof.
  intros (o & Hl & Ho). unfold Set_. split.
  - exists o. split.
    + rewrite list_lookup_alter_eq, Hl. reflexivity.
    + destruct o as [p|]; [|exact Ho].
      destruct Ho as [Hlt Hc]. split; [exact Hlt|].
      eapply chain_agree; [exact Hc|].
      intros a Ha. apply list_lookup_alter_ne. lia.
  - split.
    + rewrite length_alter. lia.
    + intros a _ Hne. apply list_lookup_alter_ne. congruence.
Qed.

Lemma sim_Set name v s tl e1 (h1 : Heap) e2 (h2 : Heap) :
  related s tl e1 h1 e2 h2 -> good_val v ->
  simulate tl e1 h1 e2 h2 good_val
    (env_Set e1 name v h1) (env_Set e2 name v h2).
Proof.
  intros (C1 & C2 & G1 & G2) Hv.
  pose proof (chain_lt _ _ _ _ C1) as L1.
  pose proof (chain_lt _ _ _ _ C2) as L2.
  unfold env_Set.
  destruct (decide (e1 < length h1)%nat); [|lia].
  destruct (decide (e2 < length h2)%nat); [|lia].
  destruct (chain_Set name v _ _ _ _ C1) as [D1 X1].
  destruct (chain_Set name v _ _ _ _ C2) as [D2 X2].
  simpl. repeat split; try assumption;
    try apply X1; try apply X2.
  exists (<[name := v]> s). repeat split; try assumption.
  apply map_Forall_insert_2; assumption.
Qed.

Lemma sim_enclosed {A} (good : A -> Prop) (c1 c2 : Env -> M A)
    s tl e1 (h1 : Heap) e2 (h2 : Heap) :
  related s tl e1 h1 e2 h2 ->
  (forall l1 l2 k1 k2, related ∅ (s :: tl) l1 k1 l2 k2 ->
     simulate (s :: tl) l1 k1 l2 k2 good (c1 l1 k1) (c2 l2 k2)) ->
  simulate tl e1 h1 e2 h2 good
    (bind (newEnclosed e1) c1 h1) (bind (newEnclosed e2) c2 h2).
Proof.
  intros (C1 & C2 & G1 & G2) Hc.
  pose proof (chain_lt _ _ _ _ C1) as L1.
  pose proof (chain_lt _ _ _ _ C2) as L2.
  unfold bind, newEnclosed, NewEnclosedStorage.
  assert (N1 : chain (∅ :: s :: tl)
                 (h1 ++ [{| store := ∅; outer := Some e1 |}]) (length h1)).
  { exists (Some e1). split; [apply list_lookup_middle; reflexivity|].
    split; [exact L1|]. eapply chain_agree; [exact C1|].
    intros a Ha. apply lookup_app_l. lia. }
  assert (N2 : chain (∅ :: s :: tl)
                 (h2 ++ [{| store := ∅; outer := Some e2 |}]) (length h2)).
  { exists (Some e2). split; [apply list_lookup_middle; reflexivity|].
    split; [exact L2|]. eapply chain_agree; [exact C2|].
    intros a Ha. apply lookup_app_l. lia. }
  specialize (Hc (length h1) (length h2) _ _
    (conj N1 (conj N2 (conj (map_Forall_empty _) (Forall_cons_2 _ _ _ G1 G2))))).
  unfold simulate in *.
  destruct (c1 _ _) as [[a1 k1]| |], (c2 _ _) as [[a2 k2]| |]; try exact Hc.
  destruct Hc as (Ha & Hg & [X1 Y1] & [X2 Y2] & _).
  rewrite length_app in X1, X2, Y1, Y2. simpl in X1, X2, Y1, Y2.
  assert (A1 : forall a, (a < length h1)%nat -> k1 !! a = h1 !! a).
  { intros a La. rewrite Y1 by lia. apply lookup_app_l. exact La. }
  assert (A2 : forall a, (a < length h2)%nat -> k2 !! a = h2 !! a).
  { intros a La. rewrite Y2 by lia. apply lookup_app_l. exact La. }
  repeat split; try assumption; try lia.
  - intros a La _. apply A1. exact La.
  - intros a La _. apply A2. exact La.
  - exists s. repeat split; try assumption.
    + eapply chain_agree; [exact C1|]. intros a La. apply A1. lia.
    + eapply chain_agree; [exact C2|]. intros a La. apply A2. lia.
Qed.

Section Steps.

Variable ev : ast.Node -> Env -> M Value.
Hypothesis IH : forall n, ast.loop_free n = true -> agrees ev n.

Ltac sim_step :=
  cbv beta;
  match goal with
  | |- simulate _ _ _ _ _ _ (bind (newEnclosed _) _ _) (bind (newEnclosed _) _ _) =>
      eapply sim_enclosed; [eassumption | intros ? ? ? ? ?]
  | |- simulate _ _ _ _ _ _ (bind _ _ _) (bind _ _ _) =>
      eapply sim_bind; [| intros ? ? ? ? ? ?]
  | |- simulate _ _ _ _ _ _ (ret _ _) (ret _ _) =>
      eapply sim_ret; [eassumption | try exact I; try reflexivity; try assumption]
  | |- simulate _ _ _ _ _ _ (panic _ _) (panic _ _) => apply sim_panic
  | |- simulate _ _ _ _ _ _ (typeOf _ _) (typeOf _ _) =>
      eapply sim_typeOf; eassumption
  | |- simulate _ _ _ _ _ _ (ev _ _ _) (ev _ _ _) =>
      eapply IH; [try assumption | eassumption]
  | |- simulate _ _ _ _ _ _ (env_Set _ _ _ _) (env_Set _ _ _ _) =>
      eapply sim_Set; [eassumption | try assumption; try reflexivity]
  | |- simulate _ _ _ _ _ _ (env_Get _ _ _) (env_Get _ _ _) =>
      eapply sim_Get; eassumption
  | |- simulate _ _ _ _ _ _ (match ?x with _ => _ end _) _ => destruct x eqn:?
  | |- simulate _ _ _ _ _ _ ((if ?x then _ else _) _) _ => destruct x eqn:?
  end.

Ltac sim := repeat sim_step.

Lemma sim_evalPrefix Operator Right s tl e1 (h1 : Heap) e2 (h2 : Heap) :
  ast.loop_free Right = true -> related s tl e1 h1 e2 h2 ->
  simulate tl e1 h1 e2 h2 good_val
    (evalPrefix Inspect ev Operator Right e1 h1)
    (evalPrefix Inspect ev Operator Right e2 h2).
Proof.
  intros HR Hr.
  unfold evalPrefix, evalBangOperator, evalMinusPrefix. sim.
Qed.

Lemma good_selectBoolObject b : good_val (Some (selectBoolObject b)).
Proof. destruct b; reflexivity. Qed.

Lemma sim_evalInfix Left Operator Right s tl e1 (h1 : Heap) e2 (h2 : Heap) :
  ast.loop_free Left = true -> ast.loop_free Right = true ->
  related s tl e1 h1 e2 h2 ->
  simulate tl e1 h1 e2 h2 good_val
    (evalInfix Inspect ev Left Operator Right e1 h1)
    (evalInfix Inspect ev Left Operator Right e2 h2).
Proof.
  intros HL HR Hr.
  unfold evalInfix, evalArithmeticOperations, evalBooleanExpression. sim.
  all: apply good_selectBoolObject.
Qed.

Lemma sim_evalIfExpression Condition Consequence Alternative
    s tl e1 (h1 : Heap) e2 (h2 : Heap) :
  ast.loop_free Condition = true -> ast.loop_free Consequence = true ->
  (forall alt, Alternative = Some alt -> ast.loop_free alt = true) ->
  related s tl e1 h1 e2 h2 ->
  simulate tl e1 h1 e2 h2 good_val
    (evalIfExpression Inspect ev Condition Consequence Alternative e1 h1)
    (evalIfExpression Inspect ev Condition Consequence Alternative e2 h2).
Proof.
  intros HC HT HA Hr. unfold evalIfExpression. sim.
  apply HA. reflexivity.
Qed.

Lemma good_val_carried v : good_val (Some (ReturnObject v)) -> good_val v.
Proof. destruct v; [exact (fun H => H) | exact (fun _ => I)]. Qed.

Lemma sim_evalStatements_from stmts :
  Forall (fun n => ast.loop_free n = true) stmts ->
  forall res s tl e1 (h1 : Heap) e2 (h2 : Heap),
  good_val res -> related s tl e1 h1 e2 h2 ->
  simulate tl e1 h1 e2 h2 good_val
    (evalStatements_from ev res stmts e1 h1)
    (evalStatements_from ev res stmts e2 h2).
Proof.
  induction 1 as [|value rest Hv _ IHrest]; intros res s tl e1 h1 e2 h2 Hg Hr;
    cbn [evalStatements_from].
  - sim.
  - sim; try (eapply IHrest; eassumption).
    apply good_val_carried. assumption.
Qed.

Lemma sim_evalBlockStatement_from Statements :
  Forall (fun n => ast.loop_free n = true) Statements ->
  forall res s tl e1 (h1 : Heap) e2 (h2 : Heap),
  good_val res -> related s tl e1 h1 e2 h2 ->
  simulate tl e1 h1 e2 h2 good_val
    (evalBlockStatement_from ev res Statements e1 h1)
    (evalBlockStatement_from ev res Statements e2 h2).
Proof.
  induction 1 as [|value rest Hv _ IHrest]; intros res s tl e1 h1 e2 h2 Hg Hr;
    cbn [evalBlockStatement_from].
  - sim.
  - sim; eapply IHrest; eassumption.
Qed.

Lemma sim_evalExpressions_from exps :
  Forall (fun n => ast.loop_free n = true) exps ->
  forall res s tl e1 (h1 : Heap) e2 (h2 : Heap),
  Forall good_val res -> related s tl e1 h1 e2 h2 ->
  simulate tl e1 h1 e2 h2 (Forall good_val)
    (evalExpressions_from ev res exps e1 h1)
    (evalExpressions_from ev res exps e2 h2).
Proof.
  induction 1 as [|value rest Hv _ IHrest]; intros res s tl e1 h1 e2 h2 Hg Hr;
    cbn [evalExpressions_from].
  - sim.
  - sim.
    + repeat constructor. assumption.
    + eapply IHrest; [|eassumption].
      apply Forall_app. split; [assumption | repeat constructor; assumption].
Qed.

Lemma sim_bindParameters Parameters args :
  Forall good_val args ->
  forall i s tl e1 (h1 : Heap) e2 (h2 : Heap),
  related s tl e1 h1 e2 h2 ->
  simulate tl e1 h1 e2 h2 (fun _ => True)
    (bindParameters i Parameters args e1 h1)
    (bindParameters i Parameters args e2 h2).
Proof.
  intros Hargs.
  induction Parameters as [|param ps IHps]; intros i s tl e1 h1 e2 h2 Hr;
    cbn [bindParameters].
  - sim.
  - sim.
    + eapply (proj1 (Forall_lookup _ _) Hargs). eassumption.
    + eapply IHps. eassumption.
Qed.

Lemma sim_evalFunctionCall Identifier Arguments
    s tl e1 (h1 : Heap) e2 (h2 : Heap) :
  ast.loop_free Identifier = true ->
  Forall (fun n => ast.loop_free n = true) Arguments ->
  related s tl e1 h1 e2 h2 ->
  simulate tl e1 h1 e2 h2 good_val
    (evalFunctionCall ToString ev Identifier Arguments e1 h1)
    (evalFunctionCall ToString ev Identifier Arguments e2 h2).
Proof.
  intros HI HA Hr. unfold evalFunctionCall, evalExpressions. cbv zeta.
  sim;
    try (eapply sim_evalExpressions_from; [assumption | constructor | eassumption]);
    try (eapply sim_bindParameters; eassumption).
  match goal with
  | Hall : Forall good_val [_] |- _ => inversion Hall; assumption
  end.
Qed.

End Steps.

Lemma Forall_loop_free l :
  forallb ast.loop_free l = true ->
  Forall (fun n => ast.loop_free n = true) l.
Proof. intros H. apply Forall_forall. apply forallb_forall. exact H. Qed.

Lemma eval_agrees fuel :
  forall n, ast.loop_free n = true ->
    agrees (eval Inspect ToString evalForLoop fuel) n.
Proof.
  induction fuel as [|fuel IHfuel]; intros n Hn s tl e1 h1 e2 h2 Hr.
  - exact I.
  - destruct n; simpl in Hn; try discriminate; cbn [eval].
    all: repeat match goal with
         | H : _ && _ = true |- _ => apply andb_prop in H; destruct H
         end.
    + eapply sim_evalStatements_from; eauto using Forall_loop_free. exact I.
    + eapply IHfuel; eassumption.
    + eapply sim_bind; [eapply IHfuel; eassumption|].
      intros val k1 k2 s' Hg Hr'.
      destruct (isError val); [eapply sim_ret; eassumption|].
      eapply sim_Set; eassumption.
    + eapply sim_bind; [eapply IHfuel; eassumption|].
      intros val k1 k2 s' Hg Hr'. eapply sim_ret; [eassumption|].
      destruct val; [exact Hg | reflexivity].
    + eapply sim_bind; [eapply sim_Set; [eassumption | exact Hn]|].
      intros val k1 k2 s' Hg Hr'. eapply sim_ret; [eassumption | exact Hn].
    + eapply sim_evalBlockStatement_from; eauto using Forall_loop_free. exact I.
    + eapply sim_bind; [eapply sim_Get; eassumption|].
      intros r k1 k2 s' Hg Hr'.
      destruct r as [val|]; eapply sim_ret; eassumption.
    + eapply sim_ret; [eassumption | reflexivity].
    + eapply sim_ret; [eassumption | reflexivity].
    + destruct (bool_decide _); eapply sim_ret; try eassumption; reflexivity.
    + eapply sim_evalPrefix; eauto.
    + eapply sim_evalInfix; eauto.
    + eapply sim_evalIfExpression; eauto.
      intros alt ->. assumption.
    + eapply sim_evalFunctionCall; eauto using Forall_loop_free.
    + eapply sim_ret; [eassumption | exact Hn].
Qed.

(** C9: two runs of the same loop-free program, each in a fresh empty
    environment allocated in an arbitrary heap, have the same outcome: the
    same value, or the same abort.  In particular the heap that a first run
    leaves behind does not affect a second one. *)
Theorem fresh_environment_runs_agree fuel Statements (h1 h2 : Heap) :
  ast.loop_free (ast.Program Statements) = true ->
  result (EvalProgram Inspect ToString evalForLoop fuel
            (NewFromProgram (Some Statements))
            (length h1) (h1 ++ [NewStorage]))
  = result (EvalProgram Inspect ToString evalForLoop fuel
              (NewFromProgram (Some Statements))
              (length h2) (h2 ++ [NewStorage])).
Proof.
  intros Hfree. unfold EvalProgram, NewFromProgram. cbn [program].
  assert (Hr : related ∅ [] (length h1) (h1 ++ [NewStorage])
                 (length h2) (h2 ++ [NewStorage])).
  { repeat split.
    - exists None. split; [apply list_lookup_middle|]; reflexivity.
    - exists None. split; [apply list_lookup_middle|]; reflexivity.
    - apply map_Forall_empty.
    - constructor. }
  pose proof (eval_agrees fuel _ Hfree _ _ _ _ _ _ Hr) as Hsim.
  unfold simulate, result in *.
  destruct (eval _ _ _ _ _ _ (h1 ++ _)) as [[v1 k1]| |],
           (eval _ _ _ _ _ _ (h2 ++ _)) as [[v2 k2]| |];
    try contradiction; try reflexivity.
  - destruct Hsim as (-> & _). reflexivity.
  - congruence.
Qed.

End Determinism.

Lemma fresh_environment_runs_agree_witness :
  let h2 := [NewStorage; NewEnclosedStorage 0] in
  result (EvalProgram Inspect0 ToString0 evalForLoop0 10
            (NewFromProgram (Some shadowing_caller))
            0%nat ([] ++ [NewStorage]))
  = result (EvalProgram Inspect0 ToString0 evalForLoop0 10
              (NewFromProgram (Some shadowing_caller))
              2%nat (h2 ++ [NewStorage])).
Proof.
  intros h2.
  apply (fresh_environment_runs_agree Inspect0 ToString0 evalForLoop0
           10 shadowing_caller [] h2).
  reflexivity.
Defined.

(** ** What a run keeps true of the heap *)
Section Invariant.
Import frames invariants.

Variable Inspect : Object -> string.
Variable ToString : ast.Node -> string.
Variable evalForLoop : list ast.Node -> Env -> M Value.

Lemma Get_chain_stored n : forall (h : Heap) e name v,
  Get_chain n h e name = Some v -> stored h v.
Proof.
  induction n as [|n IH]; intros h e name v; simpl; [discriminate|].
  destruct (h !! e) as [s|] eqn:Hs; [|discriminate].
  destruct (store s !! name) as [w|] eqn:Hw.
  - intros [= <-]. exists e, s, name. split; assumption.
  - destruct (outer s) as [p|]; [apply IH | discriminate].
Qed.

Lemma heap_ok_Set (h : Heap) e name v :
  heap_ok h -> good_val v -> isError v = false ->
  heap_ok (Set_ h e name v).
Proof.
  intros Hh Hg He w (a & s & x & Hs & Hx). unfold Set_ in Hs.
  destruct (decide (a = e)) as [->|Hne].
  - rewrite list_lookup_alter_eq in Hs.
    destruct (h !! e) as [s0|] eqn:Hs0; [|discriminate].
    injection Hs as <-. unfold bind_name in Hx. simpl in Hx.
    destruct (decide (name = x)) as [->|Hnx].
    + rewrite lookup_insert_eq in Hx. injection Hx as <-. split; assumption.
    + rewrite lookup_insert_ne in Hx by assumption.
      apply Hh. exists e, s0, x. split; assumption.
  - rewrite list_lookup_alter_ne in Hs by congruence.
    apply Hh. exists a, s, x. split; assumption.
Qed.

Lemma heap_ok_enclosed (h : Heap) e :
  heap_ok h -> heap_ok (h ++ [NewEnclosedStorage e]).
Proof.
  intros Hh w (a & s & x & Hs & Hx).
  destruct (decide (a < length h)%nat) as [Hlt|Hge].
  - rewrite lookup_app_l in Hs by assumption.
    apply Hh. exists a, s, x. split; assumption.
  - rewrite lookup_app_r in Hs by lia.
    destruct (a - length h)%nat; simpl in Hs; [|discriminate].
    injection Hs as <-. simpl in Hx. rewrite lookup_empty in Hx. discriminate.
Qed.

Lemma keeps_ret {A} (good : A -> Prop) a env (h : Heap) :
  heap_ok h -> good a -> keeps env h good (ret a h).
Proof.
  intros Hh Hg. split; [assumption|]. split; [assumption|]. apply extends_refl.
Qed.

Lemma keeps_panic {A} (good : A -> Prop) why env (h : Heap) :
  why <> IndexOutOfRange -> keeps env h good (panic why h).
Proof. exact (fun H => H). Qed.

Lemma keeps_bind {A B} (gA : A -> Prop) (gB : B -> Prop) env (h : Heap)
    (c : M A) (k : A -> M B) :
  keeps env h gA (c h) ->
  (forall a h', gA a -> heap_ok h' -> keeps env h' gB (k a h')) ->
  keeps env h gB (bind c k h).
Proof.
  intros Hc Hk. unfold bind.
  destruct (c h) as [[a h']| |]; simpl in Hc; try exact Hc.
  destruct Hc as (Hg & Hh & Hx). specialize (Hk a h' Hg Hh).
  unfold keeps in *. destruct (k a h') as [[b h'']| |]; try exact Hk.
  destruct Hk as (Hb & Hh' & Hx').
  split; [assumption|]. split; [assumption|].
  exact (extends_trans _ _ _ _ Hx Hx').
Qed.

Lemma keeps_typeOf v env (h : Heap) :
  heap_ok h -> keeps env h (fun _ => True) (typeOf v h).
Proof.
  intros Hh. destruct v; [apply keeps_ret; [assumption | exact I]|].
  apply keeps_panic. discriminate.
Qed.

Lemma keeps_Get name env (h : Heap) :
  heap_ok h ->
  keeps env h
    (fun r => match r with
              | Some v => good_val v /\ isError v = false
              | None => True
              end)
    (env_Get env name h).
Proof.
  intros Hh. unfold env_Get.
  destruct (decide (env < length h)%nat); [|discriminate].
  split; [|split; [assumption | apply extends_refl]].
  destruct (Get h env name) as [v|] eqn:Hv; [|exact I].
  apply Hh. eapply Get_chain_stored. exact Hv.
Qed.

Lemma keeps_Set name v env (h : Heap) :
  heap_ok h -> good_val v -> isError v = false ->
  keeps env h good_val (env_Set env name v h).
Proof.
  intros Hh Hg He. unfold env_Set.
  destruct (decide (env < length h)%nat); [|discriminate].
  split; [assumption|]. split; [apply heap_ok_Set; assumption|].
  unfold Set_. split.
  - rewrite length_alter. lia.
  - intros a _ Hne. apply list_lookup_alter_ne. congruence.
Qed.

Lemma keeps_enclosed {A} (good : A -> Prop) (c : Env -> M A) env (h : Heap) :
  heap_ok h ->
  (forall k, heap_ok k -> keeps (length h) k good (c (length h) k)) ->
  keeps env h good (bind (newEnclosed env) c h).
Proof.
  intros Hh Hc. unfold bind, newEnclosed.
  specialize (Hc _ (heap_ok_enclosed h env Hh)).
  unfold keeps in *.
  destruct (c _ _) as [[a k]| |]; try exact Hc.
  destruct Hc as (Hg & Hk & [L X]).
  rewrite length_app in L, X. simpl in L, X.
  split; [assumption|]. split; [assumption|]. split; [lia|].
  intros a' La _. rewrite X by lia. apply lookup_app_l. exact La.
Qed.

Section Steps.

Variable ev : ast.Node -> Env -> M Value.
Hypothesis IH : forall n, ast.loop_free n = true ->
  forall env (h : Heap), heap_ok h -> keeps env h good_val (ev n env h).

Ltac keep_step :=
  cbv beta;
  match goal with
  | |- keeps _ _ _ (bind (newEnclosed _) _ _) =>
      eapply keeps_enclosed; [eassumption | intros ? ?]
  | |- keeps _ _ _ (bind _ _ _) => eapply keeps_bind; [| intros ? ? ? ?]
  | |- keeps _ _ _ (ret _ _) =>
      eapply keeps_ret; [eassumption | try exact I; try reflexivity; try assumption]
  | |- keeps _ _ _ (panic _ _) => apply keeps_panic; discriminate
  | |- keeps _ _ _ (typeOf _ _) => eapply keeps_typeOf; eassumption
  | |- keeps _ _ _ (ev _ _ _) => eapply IH; [try assumption | eassumption]
  | |- keeps _ _ _ (env_Get _ _ _) => eapply keeps_Get; eassumption
  | |- keeps _ _ _ (match ?x with _ => _ end _) => destruct x eqn:?
  | |- keeps _ _ _ ((if ?x then _ else _) _) => destruct x eqn:?
  end.

Ltac keep := repeat keep_step.

Lemma keeps_evalPrefix Operator Right env (h : Heap) :
  ast.loop_free Right = true -> heap_ok h ->
  keeps env h good_val (evalPrefix Inspect ev Operator Right env h).
Proof.
  intros HR Hh. unfold evalPrefix, evalBangOperator, evalMinusPrefix. keep.
Qed.

Lemma keeps_evalInfix Left Operator Right env (h : Heap) :
  ast.loop_free Left = true -> ast.loop_free Right = true -> heap_ok h ->
  keeps env h good_val (evalInfix Inspect ev Left Operator Right env h).
Proof.
  intros HL HR Hh.
  unfold evalInfix, evalArithmeticOperations, evalBooleanExpression. keep.
  all: apply good_selectBoolObject.
Qed.

Lemma keeps_evalIfExpression Condition Consequence Alternative env (h : Heap) :
  ast.loop_free Condition = true -> ast.loop_free Consequence = true ->
  (forall alt, Alternative = Some alt -> ast.loop_free alt = true) ->
  heap_ok h ->
  keeps env h good_val
    (evalIfExpression Inspect ev Condition Consequence Alternative env h).
Proof.
  intros HC HT HA Hh. unfold evalIfExpression. keep.
  apply HA. reflexivity.
Qed.

Lemma keeps_evalStatements_from stmts :
  Forall (fun n => ast.loop_free n = true) stmts ->
  forall res env (h : Heap), good_val res -> heap_ok h ->
  keeps env h good_val (evalStatements_from ev res stmts env h).
Proof.
  induction 1 as [|value rest Hv _ IHrest]; intros res env h Hg Hh;
    cbn [evalStatements_from].
  - keep.
  - keep; try (eapply IHrest; eassumption).
    apply good_val_carried. assumption.
Qed.

Lemma keeps_evalBlockStatement_from Statements :
  Forall (fun n => ast.loop_free n = true) Statements ->
  forall res env (h : Heap), good_val res -> heap_ok h ->
  keeps env h good_val (evalBlockStatement_from ev res Statements env h).
Proof.
  induction 1 as [|value rest Hv _ IHrest]; intros res env h Hg Hh;
    cbn [evalBlockStatement_from].
  - keep.
  - keep; eapply IHrest; eassumption.
Qed.

Lemma keeps_evalExpressions_from exps :
  Forall (fun n => ast.loop_free n = true) exps ->
  forall res env (h : Heap),
  Forall good_val res -> Forall (fun a => isError a = false) res ->
  heap_ok h ->
  keeps env h
    (fun args => Forall good_val args /\
                 arguments_shape (length res + length exps) args)
    (evalExpressions_from ev res exps env h).
Proof.
  induction 1 as [|value rest Hv _ IHrest]; intros res env h Hg He Hh;
    cbn [evalExpressions_from].
  - keep. split; [assumption|]. right. split; [simpl; lia | assumption].
  - keep.
    + split; [repeat constructor; assumption|].
      left. eexists. split; [reflexivity | assumption].
    + replace (length res + length (value :: rest))%nat
        with (length (res ++ [a]) + length rest)%nat
        by (rewrite length_app; simpl; lia).
      eapply IHrest; try assumption.
      * apply Forall_app. split; [assumption | repeat constructor; assumption].
      * apply Forall_app. split; [assumption | repeat constructor; assumption].
Qed.

Lemma keeps_bindParameters Parameters args :
  Forall good_val args -> Forall (fun a => isError a = false) args ->
  forall i env (h : Heap),
  (length Parameters + i <= length args)%nat -> heap_ok h ->
  keeps env h (fun _ => True) (bindParameters i Parameters args env h).
Proof.
  intros Hg He.
  induction Parameters as [|param ps IHps]; intros i env h Hlen Hh;
    cbn [bindParameters].
  - keep.
  - simpl in Hlen. destruct (args !! i) as [a|] eqn:Ha.
    2:{ apply lookup_ge_None in Ha. lia. }
    keep.
    + eapply keeps_Set; [assumption | |].
      * eapply (proj1 (Forall_lookup _ _) Hg). exact Ha.
      * eapply (proj1 (Forall_lookup _ _) He). exact Ha.
    + eapply IHps; [lia | assumption].
Qed.

Lemma keeps_call Parameters Body args env (h : Heap) :
  Forall good_val args -> Forall (fun a => isError a = false) args ->
  length args = length Parameters -> ast.loop_free Body = true ->
  heap_ok h ->
  keeps env h good_val
    ((do localEnv <- newEnclosed env;
      do _ <- bindParameters 0 Parameters args localEnv;
      ev Body localEnv) h).
Proof.
  intros Hg He Hlen HB Hh. keep.
  eapply keeps_bindParameters; try assumption. lia.
Qed.

Lemma keeps_evalFunctionCall Identifier Arguments env (h : Heap) :
  ast.loop_free Identifier = true ->
  Forall (fun n => ast.loop_free n = true) Arguments ->
  heap_ok h ->
  keeps env h good_val
    (evalFunctionCall ToString ev Identifier Arguments env h).
Proof.
  intros HI HA Hh. unfold evalFunctionCall, evalExpressions. cbv zeta.
  eapply keeps_bind; [eapply IH; eassumption|].
  intros callee h1 Hc Hh1.
  destruct callee as [[| | |Parameters Body| |]|]; try (keep; fail).
  destruct (negb (bool_decide (length Arguments = length Parameters))) eqn:Hn;
    [keep|].
  apply negb_false_iff, bool_decide_eq_true_1 in Hn.
  eapply keeps_bind;
    [eapply (keeps_evalExpressions_from _ HA []); [constructor | constructor | assumption]|].
  intros args h2 [Hg Hs] Hh2. simpl in Hs.
  assert (Hcall : Forall (fun a => isError a = false) args ->
            keeps env h2 good_val
              ((do localEnv <- newEnclosed env;
                do _ <- bindParameters 0 Parameters args localEnv;
                ev Body localEnv) h2)).
  { intros He. apply keeps_call; try assumption.
    destruct Hs as [(r & -> & Hr) | [Hl _]]; [|lia].
    inversion He; congruence. }
  destruct args as [|a [|b rest]].
  - apply Hcall. constructor.
  - destruct (isError a) eqn:Ha.
    + keep. inversion Hg; assumption.
    + apply Hcall. repeat constructor. assumption.
  - apply Hcall. destruct Hs as [(r & [=] & _) | [_ He]]. assumption.
Qed.

End Steps.

Lemma eval_keeps fuel :
  forall n, ast.loop_free n = true ->
  forall env (h : Heap), heap_ok h ->
    keeps env h good_val (eval Inspect ToString evalForLoop fuel n env h).
Proof.
  induction fuel as [|fuel IHfuel]; intros n Hn env h Hh.
  - exact I.
  - destruct n; simpl in Hn; try discriminate; cbn [eval].
    all: repeat match goal with
         | H : _ && _ = true |- _ => apply andb_prop in H; destruct H
         end.
    + eapply keeps_evalStatements_from; eauto using Forall_loop_free. exact I.
    + eapply IHfuel; eassumption.
    + eapply keeps_bind; [eapply IHfuel; eassumption|].
      intros val h1 Hg Hh1.
      destruct (isError val) eqn:He; [eapply keeps_ret; eassumption|].
      eapply keeps_Set; eassumption.
    + eapply keeps_bind; [eapply IHfuel; eassumption|].
      intros val h1 Hg Hh1. eapply keeps_ret; [eassumption|].
      destruct val; [exact Hg | reflexivity].
    + eapply keeps_bind; [eapply keeps_Set; [eassumption | exact Hn | reflexivity]|].
      intros val h1 Hg Hh1. eapply keeps_ret; [eassumption | exact Hn].
    + eapply keeps_evalBlockStatement_from; eauto using Forall_loop_free. exact I.
    + eapply keeps_bind; [eapply keeps_Get; eassumption|].
      intros r h1 Hg Hh1.
      destruct r as [val|]; (eapply keeps_ret; [eassumption|]);
        [exact (proj1 Hg) | reflexivity].
    + eapply keeps_ret; [eassumption | reflexivity].
    + eapply keeps_ret; [eassumption | reflexivity].
    + destruct (bool_decide _); eapply keeps_ret; try eassumption; reflexivity.
    + eapply keeps_evalPrefix; eauto.
    + eapply keeps_evalInfix; eauto.
    + eapply keeps_evalIfExpression; eauto.
      intros alt ->. assumption.
    + eapply keeps_evalFunctionCall; eauto using Forall_loop_free.
    + eapply keeps_ret; [eassumption | exact Hn].
Qed.

Lemma heap_ok_fresh : heap_ok [NewStorage].
Proof.
  intros v (a & s & x & Hs & Hx).
  destruct a as [|a]; simpl in Hs; [|discriminate].
  injection Hs as <-. simpl in Hx. rewrite lookup_empty in Hx. discriminate.
Qed.


(** X2: no run of a loop-free program binds a name to an Error: if no
    environment holds an Error before the run, none does after it. *)
Theorem errors_are_never_bound fuel n env (h : Heap) v h' :
  ast.loop_free n = true -> heap_ok h ->
  eval Inspect ToString evalForLoop fuel n env h = Ok (v, h') ->
  forall w, stored h' w -> isError w = false.
Proof.
  intros Hn Hh Hev w Hw. pose proof (eval_keeps fuel n Hn env h Hh) as Hk.
  rewrite Hev in Hk. destruct Hk as (_ & Hh' & _). apply Hh'. exact Hw.
Qed.


End Invariant.


Lemma errors_are_never_bound_witness :
  exists v h',
    eval0 10 (ast.Program returned_function) 0%nat [NewStorage] = Ok (v, h') /\
    forall w, invariants.stored h' w -> isError w = false.
Proof.
  eexists. eexists. split; [vm_compute; reflexivity|].
  refine (errors_are_never_bound Inspect0 ToString0 evalForLoop0
            10 (ast.Program returned_function) 0%nat [NewStorage] _ _
            _ _ _).
  - reflexivity.
  - exact heap_ok_fresh.
  - vm_compute; reflexivity.
Defined.


(** ** Laws of the evaluator *)
Section EvalLaws.
Import frames invariants.

Variable Inspect : Object -> string.
Variable ToString : ast.Node -> string.
Variable evalForLoop : list ast.Node -> Env -> M Value.

Let run := eval Inspect ToString evalForLoop.

Lemma evalExpressions_from_shape ev exps :
  forall res env (h : Heap) args h',
  Forall (fun a => isError a = false) res ->
  evalExpressions_from ev res exps env h = Ok (args, h') ->
  arguments_shape (length res + length exps) args.
Proof.
  induction exps as [|x exps IH]; intros res env h args h' Hres Hev;
    cbn [evalExpressions_from] in Hev.
  - injection Hev as <- _. right. split; [simpl; lia | assumption].
  - unfold bind in Hev. destruct (ev x env h) as [[r h1]| |]; try discriminate.
    destruct (isError r) eqn:Hr.
    + injection Hev as <- _. left. exists r. split; [reflexivity | assumption].
    + apply IH in Hev.
      * rewrite length_app in Hev. simpl in *.
        replace (length res + S (length exps))%nat
          with (length res + 1 + length exps)%nat by lia. exact Hev.
      * apply Forall_app. split; [assumption | repeat constructor; assumption].
Qed.

(** X4: whatever the expressions, [evalExpressions] hands back either one
    Error alone or as many values as there are expressions, none of them an
    Error. *)
Theorem evalExpressions_shape ev exps env (h : Heap) args h' :
  evalExpressions ev exps env h = Ok (args, h') ->
  arguments_shape (length exps) args.
Proof.
  intros Hev. unfold evalExpressions in Hev.
  apply evalExpressions_from_shape in Hev; [exact Hev | constructor].
Qed.

Lemma evalStatements_from_sticky ev stmts more :
  forall res env (h : Heap) m h1,
  isError res = false ->
  evalStatements_from ev res stmts env h = Ok (Some (ErrorObject m), h1) ->
  evalStatements_from ev res (stmts ++ more) env h
    = Ok (Some (ErrorObject m), h1).
Proof.
  induction stmts as [|value rest IH]; intros res env h m h1 Hres Hev.
  - cbn in Hev. injection Hev as -> _. discriminate Hres.
  - cbn [evalStatements_from app] in *. unfold bind in *.
    destruct (ev value env h) as [[r h2]| |]; try discriminate.
    destruct r as [[]|]; try exact Hev; apply IH; try exact Hev; reflexivity.
Qed.

(** X5: an Error ends the program: when a program evaluates to an Error,
    the same program followed by any further statements evaluates to that
    Error on the same heap. *)
Theorem program_error_is_final fuel stmts more env (h : Heap) m h1 :
  run fuel (ast.Program stmts) env h = Ok (Some (ErrorObject m), h1) ->
  run fuel (ast.Program (stmts ++ more)) env h
    = Ok (Some (ErrorObject m), h1).
Proof.
  subst run. destruct fuel as [|fuel]; [discriminate|]. cbn [eval].
  unfold evalStatements. apply evalStatements_from_sticky. reflexivity.
Qed.

Lemma evalBlockStatement_from_sticky ev Statements more :
  forall res env (h : Heap) o h1,
  match res with Some r => is_signal r = false | None => True end ->
  is_signal o = true ->
  evalBlockStatement_from ev res Statements env h = Ok (Some o, h1) ->
  evalBlockStatement_from ev res (Statements ++ more) env h = Ok (Some o, h1).
Proof.
  induction Statements as [|value rest IH]; intros res env h o h1 Hres Ho Hev.
  - cbn in Hev. injection Hev as -> _. congruence.
  - cbn [evalBlockStatement_from app] in *. unfold bind in *.
    destruct (ev value env h) as [[r h2]| |]; try discriminate.
    destruct r as [r|].
    + fold (is_signal r) in *. destruct (is_signal r) eqn:Hr; [exact Hev|].
      eapply IH; [exact Hr | exact Ho | exact Hev].
    + eapply IH; [exact I | exact Ho | exact Hev].
Qed.

(** X6: a Return-signal or an Error ends a block: when a block evaluates to
    one, the same block followed by any further statements evaluates to it
    on the same heap. *)
Theorem block_signal_is_final fuel Statements more env (h : Heap) o h1 :
  is_signal o = true ->
  run fuel (ast.BlockStatement Statements) env h = Ok (Some o, h1) ->
  run fuel (ast.BlockStatement (Statements ++ more)) env h = Ok (Some o, h1).
Proof.
  subst run. intros Ho. destruct fuel as [|fuel]; [discriminate|]. cbn [eval].
  unfold evalBlockStatement. apply evalBlockStatement_from_sticky;
    [exact I | exact Ho].
Qed.

Lemma nest_step fuel stmt rest env (h : Heap) o h1 :
  is_signal o = true ->
  run (S fuel) stmt env h = Ok (Some o, h1) ->
  run (S (S (S (S fuel))))
      (ast.BlockStatement
         (ast.ExpressionStatement
            (ast.IfExpression samples.TRUE stmt None) :: rest)) env h
    = Ok (Some o, h1).
Proof.
  intros Ho Hs. subst run.
  change (evalBlockStatement_from
            (eval Inspect ToString evalForLoop (S (S (S fuel)))) None
            (ast.ExpressionStatement
               (ast.IfExpression samples.TRUE stmt None) :: rest) env h
          = Ok (Some o, h1)).
  cbn [evalBlockStatement_from]. unfold bind at 1.
  change (eval Inspect ToString evalForLoop (S (S (S fuel)))
            (ast.ExpressionStatement
               (ast.IfExpression samples.TRUE stmt None)) env h)
    with (evalIfExpression Inspect
            (eval Inspect ToString evalForLoop (S fuel))
            samples.TRUE stmt None env h).
  unfold evalIfExpression. unfold bind at 1.
  change (eval Inspect ToString evalForLoop (S fuel) samples.TRUE env h)
    with (@Ok (Value * Heap) (Some (Boolean true_obj), h)).
  cbn -[eval]. rewrite bool_decide_eq_true_2 by reflexivity. cbn [negb].
  rewrite Hs. fold (is_signal o). rewrite Ho. reflexivity.
Qed.

Lemma nest_signal k : forall fuel stmt rest env (h : Heap) o h1,
  is_signal o = true ->
  run (S fuel) stmt env h = Ok (Some o, h1) ->
  run (3 * k + S fuel) (nest k stmt rest) env h = Ok (Some o, h1).
Proof.
  induction k as [|k IH]; intros fuel stmt rest env h o h1 Ho Hs.
  - exact Hs.
  - specialize (IH fuel stmt rest env h o h1 Ho Hs).
    replace (3 * S k + S fuel)%nat with (S (S (S (S (3 * k + fuel))))) by lia.
    replace (3 * k + S fuel)%nat with (S (3 * k + fuel)) in IH by lia.
    cbn [nest]. apply nest_step; assumption.
Qed.

(** X7: a Return-signal or an Error leaves any depth of nesting: a
    statement that yields one, wrapped [k] times in a block inside a
    conditional, makes the whole nest yield it, and none of the statements
    that follow it at any level is evaluated. *)
Theorem signal_unwinds_nested_blocks
    k fuel stmt rest env (h : Heap) o h1 :
  is_signal o = true ->
  run (S fuel) stmt env h = Ok (Some o, h1) ->
  run (3 * k + S fuel) (nest k stmt rest) env h = Ok (Some o, h1).
Proof. intros Ho Hs. apply nest_signal; assumption. Qed.


End EvalLaws.

(** ** Bindings, integers and calls *)
Section ValueLaws.
Import frames invariants.

Variable Inspect : Object -> string.
Variable ToString : ast.Node -> string.
Variable evalForLoop : list ast.Node -> Env -> M Value.

Let run := eval Inspect ToString evalForLoop.

Lemma Get_chain_Set_eq n (h : Heap) env x v :
  (env < length h)%nat ->
  Get_chain (S n) (Set_ h env x v) env x = Some v.
Proof.
  intros Hlt. unfold Set_. cbn [Get_chain].
  rewrite list_lookup_alter_eq.
  destruct (h !! env) as [s|] eqn:Hs.
  - simpl. rewrite lookup_insert_eq. reflexivity.
  - apply lookup_ge_None in Hs. lia.
Qed.

Lemma Get_chain_Set_ne n : forall (h : Heap) env x v e y,
  y <> x ->
  Get_chain n (Set_ h env x v) e y = Get_chain n h e y.
Proof.
  induction n as [|n IH]; intros h env x v e y Hne; [reflexivity|].
  cbn [Get_chain]. unfold Set_ at 1.
  destruct (decide (e = env)) as [->|Hd].
  - rewrite list_lookup_alter_eq.
    destruct (h !! env) as [s|]; [|reflexivity]. simpl.
    rewrite lookup_insert_ne by congruence.
    destruct (store s !! y); [reflexivity|].
    destruct (outer s); [apply IH; assumption | reflexivity].
  - rewrite list_lookup_alter_ne by congruence.
    destruct (h !! e) as [s|]; [|reflexivity].
    destruct (store s !! y); [reflexivity|].
    destruct (outer s); [apply IH; assumption | reflexivity].
Qed.

(** X9: a variable reads back what was bound to it.  When the value of a
    [var] statement is no Error, the statement yields it and binds it in
    the current environment; the identifier then evaluates to that value
    there, and every other identifier evaluates, from any environment, to
    what it did before the binding. *)
Theorem var_binds_and_reads_back fuel x Value env (h : Heap) v h1 :
  run fuel Value env h = Ok (v, h1) ->
  isError v = false ->
  (env < length h1)%nat ->
  run (S fuel) (ast.VarStatement x Value) env h = Ok (v, Set_ h1 env x v) /\
  (forall fuel',
     run (S fuel') (ast.Identifier x) env (Set_ h1 env x v)
       = Ok (v, Set_ h1 env x v)) /\
  (forall fuel' e y, y <> x ->
     result (run (S fuel') (ast.Identifier y) e (Set_ h1 env x v))
       = result (run (S fuel') (ast.Identifier y) e h1)).
Proof.
  intros Hv He Hlt. subst run.
  assert (Hlen : length (Set_ h1 env x v) = length h1) by apply length_alter.
  split; [|split].
  - change (bind (eval Inspect ToString evalForLoop fuel Value env)
              (fun val => if isError val then ret val else env_Set env x val) h
            = Ok (v, Set_ h1 env x v)).
    unfold bind. rewrite Hv, He. unfold env_Set.
    destruct (decide (env < length h1)%nat); [reflexivity | contradiction].
  - intros fuel'. cbn [eval]. unfold bind, env_Get, Get. rewrite Hlen.
    destruct (decide (env < length h1)%nat); [|contradiction].
    destruct (length h1) as [|n] eqn:Hn; [lia|].
    rewrite Get_chain_Set_eq by lia. reflexivity.
  - intros fuel' e y Hne. cbn [eval]. unfold bind, env_Get, Get. rewrite Hlen.
    rewrite Get_chain_Set_ne by assumption.
    destruct (decide (e < length h1)%nat); [|reflexivity].
    destruct (Get_chain (length h1) h1 e y); reflexivity.
Qed.


Lemma wrap64_exact z : int64 z -> wrap64 z = z.
Proof.
  unfold int64, wrap64. intros Hz.
  rewrite Z.mod_small by lia. lia.
Qed.



Ltac on_integers H1 H2 H3 :=
  cbn [eval]; unfold evalInfix; unfold bind at 1; rewrite H1;
  cbn -[eval]; unfold evalArithmeticOperations; unfold bind at 1; rewrite H2;
  unfold bind at 1; rewrite H3;
  cbn -[eval wrap64 Z.add Z.sub Z.mul Z.quot Z.opp].

(** X11: integer arithmetic is exact when the result fits in 64 bits.
    When both operands evaluate to Integers (the arithmetic path evaluates
    the left one a second time), [+], [-] and [*] yield the mathematical
    sum, difference and product whenever that number is in range. *)
Theorem arithmetic_is_exact fuel Left Right env (h : Heap) a h1 a' h2 b h3 :
  run fuel Left env h = Ok (Some (Integer a), h1) ->
  run fuel Left env h1 = Ok (Some (Integer a'), h2) ->
  run fuel Right env h2 = Ok (Some (Integer b), h3) ->
  (int64 (a' + b) ->
   run (S fuel) (ast.InfixExpression Left "+" Right) env h
     = Ok (Some (Integer (a' + b)), h3)) /\
  (int64 (a' - b) ->
   run (S fuel) (ast.InfixExpression Left "-" Right) env h
     = Ok (Some (Integer (a' - b)), h3)) /\
  (int64 (a' * b) ->
   run (S fuel) (ast.InfixExpression Left "*" Right) env h
     = Ok (Some (Integer (a' * b)), h3)).
Proof.
  intros H1 H2 H3. subst run.
  split; [|split]; intros Hr; rewrite <- (wrap64_exact _ Hr);
    on_integers H1 H2 H3; reflexivity.
Qed.

Lemma comparison_on_integers fuel Left Operator Right env (h : Heap)
    a h1 a' h2 b h3 c :
  run fuel Left env h = Ok (Some (Integer a), h1) ->
  run fuel Left env h1 = Ok (Some (Integer a'), h2) ->
  run fuel Right env h2 = Ok (Some (Integer b), h3) ->
  comparison Operator a' b = Some c ->
  run (S fuel) (ast.InfixExpression Left Operator Right) env h
    = Ok (Some (selectBoolObject c), h3).
Proof.
  intros H1 H2 H3 Hc. subst run. unfold comparison in Hc.
  repeat match type of Hc with
         | context [bool_decide (Operator = ?s)] =>
             destruct (bool_decide (Operator = s)) eqn:E;
             [ apply bool_decide_eq_true_1 in E; subst Operator;
               injection Hc as <-; on_integers H1 H2 H3; reflexivity
             | clear E ]
         end.
  discriminate Hc.
Qed.

(** X12: logical negation is sound on integer equality: when both operands
    evaluate to Integers, [!(l == r)] and [l != r] evaluate to the same
    static Boolean on the same heap. *)
Theorem negated_equality_is_inequality
    fuel Left Right env (h : Heap) a h1 a' h2 b h3 :
  run fuel Left env h = Ok (Some (Integer a), h1) ->
  run fuel Left env h1 = Ok (Some (Integer a'), h2) ->
  run fuel Right env h2 = Ok (Some (Integer b), h3) ->
  run (S (S fuel))
      (ast.PrefixExpression "!" (ast.InfixExpression Left "==" Right)) env h
    = Ok (Some (selectBoolObject (negb (bool_decide (a' = b)))), h3) /\
  run (S fuel) (ast.InfixExpression Left "!=" Right) env h
    = Ok (Some (selectBoolObject (negb (bool_decide (a' = b)))), h3).
Proof.
  intros H1 H2 H3.
  pose proof (comparison_on_integers fuel Left "==" Right env h
                a h1 a' h2 b h3 _ H1 H2 H3 eq_refl) as Heq.
  pose proof (comparison_on_integers fuel Left "!=" Right env h
                a h1 a' h2 b h3 _ H1 H2 H3 eq_refl) as Hne.
  split; [|exact Hne]. subst run.
  change (evalBangOperator Inspect (eval Inspect ToString evalForLoop (S fuel))
            (ast.InfixExpression Left "==" Right) env h
          = Ok (Some (selectBoolObject (negb (bool_decide (a' = b)))), h3)).
  unfold evalBangOperator. unfold bind at 1. rewrite Heq.
  destruct (bool_decide (a' = b)); reflexivity.
Qed.

(** X13: a conditional on an integer comparison takes the branch the
    comparison says: when both operands evaluate to Integers and the
    operator is one of [>], [<], [==], [!=], the consequence runs if the
    comparison holds, else the alternative if there is one, else the
    conditional yields no value. *)
Theorem conditional_on_integer_comparison
    fuel Left Operator Right Consequence Alternative env (h : Heap)
    a h1 a' h2 b h3 c :
  run fuel Left env h = Ok (Some (Integer a), h1) ->
  run fuel Left env h1 = Ok (Some (Integer a'), h2) ->
  run fuel Right env h2 = Ok (Some (Integer b), h3) ->
  comparison Operator a' b = Some c ->
  run (S (S fuel))
      (ast.IfExpression (ast.InfixExpression Left Operator Right)
         Consequence Alternative) env h
    = if c then run (S fuel) Consequence env h3
      else match Alternative with
           | Some alt => run (S fuel) alt env h3
           | None => Ok (None, h3)
           end.
Proof.
  intros H1 H2 H3 Hc.
  pose proof (comparison_on_integers fuel Left Operator Right env h
                a h1 a' h2 b h3 c H1 H2 H3 Hc) as Hcmp.
  subst run.
  change (evalIfExpression Inspect (eval Inspect ToString evalForLoop (S fuel))
            (ast.InfixExpression Left Operator Right)
            Consequence Alternative env h
          = if c then eval Inspect ToString evalForLoop (S fuel) Consequence env h3
            else match Alternative with
                 | Some alt => eval Inspect ToString evalForLoop (S fuel) alt env h3
                 | None => Ok (None, h3)
                 end).
  unfold evalIfExpression. unfold bind at 1. rewrite Hcmp.
  destruct c, Alternative; reflexivity.
Qed.

Lemma evalExpressions_from_app ev pre rest :
  forall res env (h : Heap) vals h2,
  evalExpressions_from ev res pre env h = Ok (vals, h2) ->
  Forall (fun a => isError a = false) vals ->
  evalExpressions_from ev res (pre ++ rest) env h
    = evalExpressions_from ev vals rest env h2.
Proof.
  induction pre as [|x pre IH]; intros res env h vals h2 Hev Hok.
  - cbn in Hev. injection Hev as <- <-. reflexivity.
  - cbn [evalExpressions_from app] in *. unfold bind in *.
    destruct (ev x env h) as [[r h']| |]; try discriminate.
    destruct (isError r) eqn:Hr.
    + injection Hev as <- _. inversion Hok; congruence.
    + apply IH; assumption.
Qed.

(** X14: the first argument that evaluates to an Error is the result of
    the call, message unchanged: the arguments before it have been
    evaluated in order, the ones after it are not, and no environment is
    allocated for the call. *)
Theorem argument_error_is_call_result
    fuel Identifier pre bad post env (h : Heap)
    Parameters Body h1 vals h2 m h3 :
  run fuel Identifier env h = Ok (Some (FunctionObject Parameters Body), h1) ->
  length (pre ++ bad :: post) = length Parameters ->
  evalExpressions (run fuel) pre env h1 = Ok (vals, h2) ->
  Forall (fun a => isError a = false) vals ->
  run fuel bad env h2 = Ok (Some (ErrorObject m), h3) ->
  run (S fuel) (ast.FunctionCall Identifier (pre ++ bad :: post)) env h
    = Ok (Some (ErrorObject m), h3).
Proof.
  intros Hf Hlen Hpre Hok Hbad. subst run. cbn [eval].
  unfold evalFunctionCall. unfold bind at 1. rewrite Hf.
  rewrite bool_decide_eq_true_2 by assumption. cbn [negb].
  unfold bind at 1. unfold evalExpressions in *.
  rewrite (evalExpressions_from_app _ _ _ _ _ _ _ _ Hpre Hok).
  cbn [evalExpressions_from]. unfold bind at 1. rewrite Hbad.
  reflexivity.
Qed.

(** X19: the scope of a call.  In the environment that a call allocates,
    an identifier bound by the positional binding of the parameters
    evaluates to the value bound, and any other identifier evaluates to
    what it evaluates to in the caller's environment. *)
Theorem identifier_in_call_environment
    fuel name Parameters args s tl env (h : Heap) :
  chain (s :: tl) h env ->
  let callEnv := {| store := bindings ∅ Parameters args; outer := Some env |} in
  result (run (S fuel) (ast.Identifier name) (length h) (h ++ [callEnv]))
  = match bindings ∅ Parameters args !! name with
    | Some v => Ok v
    | None => result (run (S fuel) (ast.Identifier name) env h)
    end.
Proof.
  intros Hc callEnv. subst run.
  pose proof (chain_lt _ _ _ _ Hc) as Hlt.
  assert (Hc' : chain (s :: tl) (h ++ [callEnv]) env).
  { eapply chain_agree; [exact Hc|]. intros a Ha. apply lookup_app_l. lia. }
  cbn [eval]. unfold bind, env_Get, Get. rewrite length_app. cbn [length].
  destruct (decide (length h < length h + 1)%nat); [|lia].
  destruct (decide (env < length h)%nat); [|lia].
  replace (length h + 1)%nat with (S (length h)) by lia.
  cbn [Get_chain]. rewrite list_lookup_middle by reflexivity.
  cbn [store outer callEnv].
  destruct (bindings ∅ Parameters args !! name) as [v|]; [reflexivity|].
  rewrite (Get_chain_frames _ _ _ _ name Hc' Hlt).
  rewrite (Get_chain_frames _ _ _ _ name Hc Hlt).
  destruct (lookup_frames (s :: tl) name); reflexivity.
Qed.

Lemma bindings_other Parameters : forall args acc (q : string),
  q ∉ Parameters -> bindings acc Parameters args !! q = acc !! q.
Proof.
  induction Parameters as [|p ps IH]; intros args acc q Hq; [reflexivity|].
  destruct args as [|a args]; [reflexivity|]. cbn [bindings].
  apply not_elem_of_cons in Hq as [Hne Hq].
  rewrite IH by assumption. apply lookup_insert_ne. congruence.
Qed.

Lemma bindings_at Parameters : forall args acc i (p : string) a,
  NoDup Parameters ->
  Parameters !! i = Some p -> args !! i = Some a ->
  bindings acc Parameters args !! p = Some a.
Proof.
  induction Parameters as [|p0 ps IH]; intros args acc i p a Hnd Hp Ha;
    [discriminate|].
  destruct args as [|a0 args]; [destruct i; discriminate|].
  inversion Hnd as [|? ? Hnot Hnd']; subst. cbn [bindings].
  destruct i as [|i]; simpl in Hp, Ha.
  - injection Hp as ->. injection Ha as ->.
    rewrite bindings_other by assumption. apply lookup_insert_eq.
  - eapply IH; eassumption.
Qed.

(** X20: parameters are bound by position.  With distinct parameter names
    and at least as many arguments, the binding loop of a call never
    aborts, and it leaves in the call's environment exactly the names of
    the parameters, each bound to the argument at its position. *)
Theorem parameters_bound_by_position Parameters args (h : Heap) o :
  NoDup Parameters ->
  (length Parameters <= length args)%nat ->
  exists st,
    bindParameters 0 Parameters args (length h)
        (h ++ [{| store := ∅; outer := o |}])
      = Ok (tt, h ++ [{| store := st; outer := o |}]) /\
    (forall i p a, Parameters !! i = Some p -> args !! i = Some a ->
       st !! p = Some a) /\
    (forall q, q ∉ Parameters -> st !! q = None).
Proof.
  intros Hnd Hlen. exists (bindings ∅ Parameters args). split; [|split].
  - rewrite bindParameters_last by lia. rewrite drop_0. reflexivity.
  - intros i p a Hp Ha. eapply bindings_at; eassumption.
  - intros q Hq. rewrite bindings_other by assumption. apply lookup_empty.
Qed.

Lemma wrap64_opp_opp z : int64 z -> wrap64 (- wrap64 (- z)) = z.
Proof.
  unfold int64. intros Hz.
  destruct (decide (z = - 2 ^ 63)) as [->|Hne]; [reflexivity|].
  rewrite (wrap64_exact (- z)) by (unfold int64; lia).
  rewrite Z.opp_involutive. apply wrap64_exact. exact Hz.
Qed.

(** X21: unary minus undoes itself: when the operand evaluates to an
    Integer in the 64-bit range, negating it twice yields it again, the
    most negative integer included. *)
Theorem double_minus_is_identity fuel Right env (h : Heap) z h1 :
  run fuel Right env h = Ok (Some (Integer z), h1) ->
  int64 z ->
  run (S (S fuel))
      (ast.PrefixExpression "-" (ast.PrefixExpression "-" Right)) env h
    = Ok (Some (Integer z), h1).
Proof.
  intros Hr Hz. subst run.
  assert (Hin : eval Inspect ToString evalForLoop (S fuel)
                  (ast.PrefixExpression "-" Right) env h
                = Ok (Some (Integer (wrap64 (- z))), h1)).
  { change (evalMinusPrefix Inspect (eval Inspect ToString evalForLoop fuel)
              Right env h = Ok (Some (Integer (wrap64 (- z))), h1)).
    unfold evalMinusPrefix. unfold bind at 1. rewrite Hr. reflexivity. }
  change (evalMinusPrefix Inspect (eval Inspect ToString evalForLoop (S fuel))
            (ast.PrefixExpression "-" Right) env h
          = Ok (Some (Integer z), h1)).
  unfold evalMinusPrefix. unfold bind at 1. rewrite Hin.
  cbn -[wrap64]. rewrite wrap64_opp_opp by exact Hz. reflexivity.
Qed.

(** X22: logical negation undoes itself on the two static Booleans: when
    the operand evaluates to [true_obj] or [false_obj], negating it twice
    yields the same static Boolean. *)
Theorem double_negation_on_static_booleans fuel Right env (h : Heap) p h1 :
  run fuel Right env h = Ok (Some (Boolean p), h1) ->
  p = true_obj \/ p = false_obj ->
  run (S (S fuel))
      (ast.PrefixExpression "!" (ast.PrefixExpression "!" Right)) env h
    = Ok (Some (Boolean p), h1).
Proof.
  intros Hr Hp. subst run.
  assert (Hin : eval Inspect ToString evalForLoop (S fuel)
                  (ast.PrefixExpression "!" Right) env h
                = Ok (Some (Boolean (if is_true_obj (Some (Boolean p))
                                     then false_obj else true_obj)), h1)).
  { change (evalBangOperator Inspect (eval Inspect ToString evalForLoop fuel)
              Right env h
            = Ok (Some (Boolean (if is_true_obj (Some (Boolean p))
                                 then false_obj else true_obj)), h1)).
    unfold evalBangOperator. unfold bind at 1. rewrite Hr.
    destruct p; reflexivity. }
  change (evalBangOperator Inspect (eval Inspect ToString evalForLoop (S fuel))
            (ast.PrefixExpression "!" Right) env h
          = Ok (Some (Boolean p), h1)).
  unfold evalBangOperator. unfold bind at 1. rewrite Hin.
  destruct Hp as [-> | ->]; reflexivity.
Qed.

End ValueLaws.

(** ** Laws of the parser *)
Section ParserLaws.
Import invariants.

Variable absent : parser.Absent.

Lemma advance_NewParserFromLexer l :
  parser.advanceToken (parser.NewParserFromLexer l)
    = parser.NewParserFromLexer (tail l).
Proof. reflexivity. Qed.

Lemma blank_lines_from lits : forall extra Statements,
  parser.ParseProgram_from absent (length lits + extra) Statements
    (parser.NewParserFromLexer (map (tok tokens.LINEBREAK) lits))
  = Some (Statements, parser.NewParserFromLexer []).
Proof.
  induction lits as [|lit lits IH]; intros extra Statements.
  - destruct extra; reflexivity.
  - cbn [length Nat.add parser.ParseProgram_from].
    change (parser.curTokenIs _ tokens.EOF) with false. cbn [negb].
    change (parser.parseStatement absent
              (parser.NewParserFromLexer
                 (map (tok tokens.LINEBREAK) (lit :: lits))))
      with (@Some (option ast.Node * parser.Parser)
              (None, parser.NewParserFromLexer
                       (map (tok tokens.LINEBREAK) (lit :: lits)))).
    cbv iota beta. rewrite advance_NewParserFromLexer. apply IH.
Qed.

(** X15: blank lines produce no statements: a token stream made only of
    line breaks, however many, parses to the empty program without any
    error, and the parser ends at end-of-input. *)
Theorem blank_lines_parse_to_nothing lits extra :
  parser.ParseProgram absent (length lits + extra)
    (parser.NewParserFromLexer (map (tok tokens.LINEBREAK) lits))
  = Some ([], parser.NewParserFromLexer []) /\
  parser.HasErrors (parser.NewParserFromLexer []) = false.
Proof. split; [apply blank_lines_from | reflexivity]. Qed.

(** X16: three operands and two binary operators group by precedence: the
    second operator takes the middle operand when its precedence is
    strictly higher than the first one's, otherwise the first two operands
    group to the left.  No error is recorded. *)
Theorem three_operands_group_by_precedence t1 l1 t2 l2 x y z :
  binary_operator t1 = true -> binary_operator t2 = true ->
  parseTokens absent
    [ tok tokens.IDENT x; tok t1 l1; tok tokens.IDENT y; tok t2 l2;
      tok tokens.IDENT z ]
  = Some (Some
      (if bool_decide (default parser.LOWEST (parser.precedences t1)
                       < default parser.LOWEST (parser.precedences t2))%nat
       then ast.InfixExpression (ID x) l1 (ast.InfixExpression (ID y) l2 (ID z))
       else ast.InfixExpression (ast.InfixExpression (ID x) l1 (ID y)) l2 (ID z)),
      []).
Proof.
  intros H1 H2.
  destruct t1; try discriminate H1; destruct t2; try discriminate H2;
    vm_compute; reflexivity.
Qed.

(** X17: every token kind registered with an infix handler has a
    precedence above LOWEST, so the loop of [parseExpression] started at
    LOWEST reaches its handler. *)
Theorem infix_handlers_have_precedence pe t :
  is_Some (parser.infixParseFns absent pe t) ->
  exists p, parser.precedences t = Some p /\ (parser.LOWEST < p)%nat.
Proof.
  intros [f Hf].
  destruct t; try discriminate Hf; eexists; (split; [reflexivity|]);
    unfold parser.LOWEST, parser.EQUALS, parser.GREATLESS, parser.SUM,
      parser.PROD, parser.CALL; lia.
Qed.

Lemma app_nil_r_eq {A} (l : list A) : l = l ++ [].
Proof. symmetry. apply app_nil_r. Qed.

Lemma errors_advance p :
  parser.errors (parser.advanceToken p) = parser.errors p.
Proof. reflexivity. Qed.

Section Handlers.

Variable pe : nat -> parser.P (option ast.Node).
Hypothesis Hpe : forall prec, keeps_errors (pe prec).
Hypothesis Habsent : absent_keeps_errors absent.

Lemma keeps_errors_prefix t f :
  parser.prefixParseFns absent pe t = Some f -> keeps_errors f.
Proof.
  destruct Habsent as (Hif & Hfn & Hfor & _).
  intros Hf p a p' Hrun.
  destruct t; try discriminate Hf; injection Hf as <-;
    try (eapply Hif; exact Hrun); try (eapply Hfn; exact Hrun);
    try (eapply Hfor; exact Hrun).
  all: unfold parser.parsePrefixExpression, parser.parseIdentifier,
         parser.parseNumber, parser.parseString, parser.parseBoolExpression,
         parser.parseGroupedExpression in Hrun.
  all: repeat match type of Hrun with
       | context [pe ?q ?r] =>
           let E := fresh "E" in
           destruct (pe q r) as [[? ?]|] eqn:E; [apply Hpe in E; destruct E as [? E]|]
       | context [match ?x with _ => _ end] => destruct x
       end; try discriminate Hrun; injection Hrun as <- <-.
  all: try (exists []; rewrite app_nil_r; reflexivity).
  all: try (eexists; cbn [parser.addError parser.errors]; reflexivity).
  all: try (eexists; rewrite ?errors_advance; eassumption).
  all: eexists; cbn [parser.addError parser.errors]; rewrite E;
       rewrite <- app_assoc; reflexivity.
Qed.

Lemma keeps_errors_infix_fn t f :
  parser.infixParseFns absent pe t = Some f -> keeps_errors_infix f.
Proof.
  destruct Habsent as (_ & _ & _ & Hcall & _).
  intros Hf left_exp p a p' Hrun.
  destruct t; try discriminate Hf; injection Hf as <-;
    try (eapply Hcall; exact Hrun).
  all: unfold parser.parseInfixExpression in Hrun.
  all: destruct (pe _ _) as [[r q]|] eqn:E; [|discriminate Hrun].
  all: apply Hpe in E; destruct E as [more E]; rewrite errors_advance in E.
  all: destruct r, left_exp; injection Hrun as <- <-; exists more; exact E.
Qed.

Lemma keeps_errors_infixLoop n : forall precedence exp,
  keeps_errors (parser.infixLoop absent pe n precedence exp).
Proof.
  induction n as [|n IH]; intros precedence exp p a p' Hrun;
    cbn [parser.infixLoop] in Hrun.
  - destruct (_ && _); [|injection Hrun as <- <-; exists []; apply app_nil_r_eq].
    destruct (parser.infixParseFns _ _ _); [discriminate Hrun|].
    injection Hrun as <- <-. exists []. apply app_nil_r_eq.
  - destruct (_ && _); [|injection Hrun as <- <-; exists []; apply app_nil_r_eq].
    destruct (parser.infixParseFns _ _ _) as [infix|] eqn:Hi;
      [|injection Hrun as <- <-; exists []; apply app_nil_r_eq].
    destruct (infix exp (parser.advanceToken p)) as [[exp' q]|] eqn:E;
      [|discriminate Hrun].
    apply (keeps_errors_infix_fn _ _ Hi) in E. destruct E as [m1 E1].
    apply IH in Hrun. destruct Hrun as [m2 E2].
    exists (m1 ++ m2). rewrite E2, E1, errors_advance, app_assoc. reflexivity.
Qed.

End Handlers.

Lemma keeps_errors_parseExpression :
  absent_keeps_errors absent ->
  forall fuel precedence,
    keeps_errors (parser.parseExpression absent fuel precedence).
Proof.
  intros Habsent. induction fuel as [|fuel IH]; intros precedence p a p' Hrun;
    cbn [parser.parseExpression] in Hrun; [discriminate Hrun|].
  destruct (parser.prefixParseFns _ _ _) as [prefix|] eqn:Hp.
  - destruct (prefix p) as [[exp q]|] eqn:E; [|discriminate Hrun].
    apply (keeps_errors_prefix _ IH Habsent _ _ Hp) in E.
    destruct E as [m1 E1].
    apply (keeps_errors_infixLoop _ IH Habsent) in Hrun.
    destruct Hrun as [m2 E2].
    exists (m1 ++ m2). rewrite E2, E1, app_assoc. reflexivity.
  - injection Hrun as <- <-. eexists. reflexivity.
Qed.

Lemma keeps_errors_parseStatement :
  absent_keeps_errors absent -> keeps_errors (parser.parseStatement absent).
Proof.
  intros (_ & _ & _ & _ & Hvar & Hret & Hfn & Hexp) p a p' Hrun.
  unfold parser.parseStatement in Hrun.
  destruct (tokens.Type_ (parser.currentToken p));
    try (eapply Hexp; exact Hrun); try (eapply Hvar; exact Hrun);
    try (eapply Hret; exact Hrun); try (eapply Hfn; exact Hrun).
  injection Hrun as <- <-. exists []. apply app_nil_r_eq.
Qed.

(** X18: parse errors only accumulate.  Provided the absent parsing
    routines only add to the error list, so do [parseExpression] and
    [ParseProgram]: the errors recorded before a parse are a prefix of the
    errors after it, and a parser that had errors still has them. *)
Theorem parse_errors_accumulate :
  absent_keeps_errors absent ->
  (forall fuel precedence,
     keeps_errors (parser.parseExpression absent fuel precedence)) /\
  (forall fuel Statements,
     keeps_errors (parser.ParseProgram_from absent fuel Statements)) /\
  (forall fuel p tree p',
     parser.ParseProgram absent fuel p = Some (tree, p') ->
     parser.HasErrors p = true -> parser.HasErrors p' = true).
Proof.
  intros Habsent.
  assert (Hprog : forall fuel Statements,
            keeps_errors (parser.ParseProgram_from absent fuel Statements)).
  { induction fuel as [|fuel IH]; intros Statements p a p' Hrun;
      cbn [parser.ParseProgram_from] in Hrun.
    - destruct (negb _); [discriminate Hrun|].
      injection Hrun as <- <-. exists []. apply app_nil_r_eq.
    - destruct (negb _);
        [|injection Hrun as <- <-; exists []; apply app_nil_r_eq].
      destruct (parser.parseStatement absent p) as [[stmt q]|] eqn:E;
        [|discriminate Hrun].
      apply (keeps_errors_parseStatement Habsent) in E. destruct E as [m1 E1].
      destruct stmt; apply IH in Hrun; destruct Hrun as [m2 E2];
        exists (m1 ++ m2); rewrite E2, errors_advance, E1, app_assoc;
        reflexivity. }
  split; [exact (keeps_errors_parseExpression Habsent)|].
  split; [exact Hprog|].
  intros fuel p tree p' Hrun Hp.
  apply Hprog in Hrun. destruct Hrun as [more E].
  unfold parser.HasErrors in *. rewrite E, length_app.
  apply negb_true_iff, bool_decide_eq_false_1 in Hp.
  apply negb_true_iff, bool_decide_eq_false_2. lia.
Qed.

End ParserLaws.

(** ** Closed instances of the laws *)

Lemma evalExpressions_shape_witness :
  invariants.arguments_shape 3
    [Some (ErrorObject "Cannot resolve identifier: x")].
Proof.
  refine (evalExpressions_shape
            (eval Inspect0 ToString0 evalForLoop0 5)
            [INT 1; ID "x"; INT 2] 0%nat [NewStorage] _ [NewStorage] _).
  vm_compute; reflexivity.
Defined.

Lemma program_error_is_final_witness :
  eval Inspect0 ToString0 evalForLoop0 5
    (ast.Program ([STMT (ID "x")] ++ [STMT (INT 5)])) 0%nat [NewStorage]
  = Ok (Some (ErrorObject "Cannot resolve identifier: x"), [NewStorage]).
Proof.
  refine (program_error_is_final Inspect0 ToString0 evalForLoop0
            5 [STMT (ID "x")] [STMT (INT 5)] 0%nat [NewStorage] _ _ _).
  vm_compute; reflexivity.
Defined.

Lemma block_signal_is_final_witness :
  eval Inspect0 ToString0 evalForLoop0 5
    (ast.BlockStatement ([ast.ReturnStatement (INT 1)] ++ [STMT (INT 2)]))
    0%nat [NewStorage]
  = Ok (Some (ReturnObject (Some (Integer 1))), [NewStorage]).
Proof.
  refine (block_signal_is_final Inspect0 ToString0 evalForLoop0
            5 [ast.ReturnStatement (INT 1)] [STMT (INT 2)] 0%nat [NewStorage]
            _ _ _ _).
  - reflexivity.
  - vm_compute; reflexivity.
Defined.

Lemma signal_unwinds_nested_blocks_witness :
  eval Inspect0 ToString0 evalForLoop0 (3 * 2 + 2)
    (invariants.nest 2 (ast.ReturnStatement (INT 1)) [STMT (INT 9)])
    0%nat [NewStorage]
  = Ok (Some (ReturnObject (Some (Integer 1))), [NewStorage]).
Proof.
  refine (signal_unwinds_nested_blocks Inspect0 ToString0 evalForLoop0
            2 1 (ast.ReturnStatement (INT 1)) [STMT (INT 9)]
            0%nat [NewStorage] _ _ _ _).
  - reflexivity.
  - vm_compute; reflexivity.
Defined.


Lemma var_binds_and_reads_back_witness :
  let h' := Set_ [NewStorage] 0 "a" (Some (Integer 3)) in
  eval Inspect0 ToString0 evalForLoop0 2
    (ast.VarStatement "a" (INT 3)) 0%nat [NewStorage]
  = Ok (Some (Integer 3), h') /\
  (forall fuel',
     eval Inspect0 ToString0 evalForLoop0 (S fuel') (ast.Identifier "a")
       0%nat h' = Ok (Some (Integer 3), h')) /\
  (forall fuel' e y, y <> "a" ->
     result (eval Inspect0 ToString0 evalForLoop0 (S fuel')
               (ast.Identifier y) e h')
     = result (eval Inspect0 ToString0 evalForLoop0 (S fuel')
                 (ast.Identifier y) e [NewStorage])).
Proof.
  intros h'.
  refine (var_binds_and_reads_back Inspect0 ToString0 evalForLoop0
            1 "a" (INT 3) 0%nat [NewStorage] (Some (Integer 3)) [NewStorage]
            _ _ _).
  - reflexivity.
  - reflexivity.
  - simpl. lia.
Defined.


Lemma arithmetic_is_exact_witness :
  (invariants.int64 (2 + 3) ->
   eval Inspect0 ToString0 evalForLoop0 2
     (ast.InfixExpression (INT 2) "+" (INT 3)) 0%nat [NewStorage]
   = Ok (Some (Integer (2 + 3)), [NewStorage])) /\
  (invariants.int64 (2 - 3) ->
   eval Inspect0 ToString0 evalForLoop0 2
     (ast.InfixExpression (INT 2) "-" (INT 3)) 0%nat [NewStorage]
   = Ok (Some (Integer (2 - 3)), [NewStorage])) /\
  (invariants.int64 (2 * 3) ->
   eval Inspect0 ToString0 evalForLoop0 2
     (ast.InfixExpression (INT 2) "*" (INT 3)) 0%nat [NewStorage]
   = Ok (Some (Integer (2 * 3)), [NewStorage])).
Proof.
  refine (arithmetic_is_exact Inspect0 ToString0 evalForLoop0
            1 (INT 2) (INT 3) 0%nat [NewStorage]
            2 [NewStorage] 2 [NewStorage] 3 [NewStorage] _ _ _);
    reflexivity.
Defined.

Lemma negated_equality_is_inequality_witness :
  eval Inspect0 ToString0 evalForLoop0 3
    (ast.PrefixExpression "!" (ast.InfixExpression (INT 1) "==" (INT 2)))
    0%nat [NewStorage]
  = Ok (Some (selectBoolObject (negb (bool_decide (1 = 2)))), [NewStorage]) /\
  eval Inspect0 ToString0 evalForLoop0 2
    (ast.InfixExpression (INT 1) "!=" (INT 2)) 0%nat [NewStorage]
  = Ok (Some (selectBoolObject (negb (bool_decide (1 = 2)))), [NewStorage]).
Proof.
  refine (negated_equality_is_inequality Inspect0 ToString0 evalForLoop0
            1 (INT 1) (INT 2) 0%nat [NewStorage]
            1 [NewStorage] 1 [NewStorage] 2 [NewStorage] _ _ _);
    reflexivity.
Defined.

Lemma conditional_on_integer_comparison_witness :
  eval Inspect0 ToString0 evalForLoop0 3
    (ast.IfExpression (ast.InfixExpression (INT 1) "<" (INT 2))
       (BLOCK [STMT (INT 10)]) (Some (BLOCK [STMT (INT 20)])))
    0%nat [NewStorage]
  = eval Inspect0 ToString0 evalForLoop0 2 (BLOCK [STMT (INT 10)])
      0%nat [NewStorage].
Proof.
  refine (conditional_on_integer_comparison Inspect0 ToString0 evalForLoop0
            1 (INT 1) "<" (INT 2)
            (BLOCK [STMT (INT 10)]) (Some (BLOCK [STMT (INT 20)]))
            0%nat [NewStorage]
            1 [NewStorage] 1 [NewStorage] 2 [NewStorage] true _ _ _ _);
    reflexivity.
Defined.

Lemma argument_error_is_call_result_witness :
  let h := Set_ [NewStorage] 0 "f"
             (Some (FunctionObject ["a"; "b"; "c"] (BLOCK [STMT (ID "a")]))) in
  eval Inspect0 ToString0 evalForLoop0 3
    (ast.FunctionCall (ID "f") ([INT 1] ++ ID "x" :: [INT 2])) 0%nat h
  = Ok (Some (ErrorObject "Cannot resolve identifier: x"), h).
Proof.
  intros h.
  refine (argument_error_is_call_result Inspect0 ToString0 evalForLoop0
            2 (ID "f") [INT 1] (ID "x") [INT 2] 0%nat h
            ["a"; "b"; "c"] (BLOCK [STMT (ID "a")]) h
            [Some (Integer 1)] h _ h _ _ _ _ _).
  - vm_compute; reflexivity.
  - reflexivity.
  - vm_compute; reflexivity.
  - repeat constructor.
  - vm_compute; reflexivity.
Defined.

Lemma identifier_in_call_environment_witness :
  let h := Set_ [NewStorage] 0 "x" (Some (Integer 1)) in
  let callEnv := {| store := frames.bindings ∅ ["a"] [Some (Integer 3)];
                    outer := Some 0%nat |} in
  result (eval Inspect0 ToString0 evalForLoop0 2 (ast.Identifier "x")
            (length h) (h ++ [callEnv]))
  = match frames.bindings ∅ ["a"] [Some (Integer 3)] !! "x" with
    | Some v => Ok v
    | None => result (eval Inspect0 ToString0 evalForLoop0 2
                        (ast.Identifier "x") 0%nat h)
    end.
Proof.
  intros h.
  refine (identifier_in_call_environment Inspect0 ToString0 evalForLoop0
            1 "x" ["a"] [Some (Integer 3)]
            (<["x" := Some (Integer 1)]> ∅) [] 0%nat h _).
  exists None. split; reflexivity.
Defined.

Lemma parameters_bound_by_position_witness :
  exists st,
    bindParameters 0 ["a"; "b"] [Some (Integer 1); Some (Integer 2)]
        (length [NewStorage])
        ([NewStorage] ++ [{| store := ∅; outer := Some 0%nat |}])
      = Ok (tt, [NewStorage] ++ [{| store := st; outer := Some 0%nat |}]) /\
    (forall i p a, ["a"; "b"] !! i = Some p ->
       [Some (Integer 1); Some (Integer 2)] !! i = Some a ->
       st !! p = Some a) /\
    (forall q, q ∉ ["a"; "b"] -> st !! q = None).
Proof.
  refine (parameters_bound_by_position ["a"; "b"]
            [Some (Integer 1); Some (Integer 2)] [NewStorage] (Some 0%nat)
            _ _).
  - constructor.
    + apply not_elem_of_cons. split; [discriminate | apply not_elem_of_nil].
    + constructor; [apply not_elem_of_nil | constructor].
  - simpl. lia.
Defined.

Lemma three_operands_group_by_precedence_witness :
  parseTokens absent0
    [ tok tokens.IDENT "a"; tok tokens.ASTERISC "*"; tok tokens.IDENT "b";
      tok tokens.PLUS "+"; tok tokens.IDENT "c" ]
  = Some (Some (ast.InfixExpression
                  (ast.InfixExpression (ID "a") "*" (ID "b")) "+" (ID "c")),
          []).
Proof.
  refine (three_operands_group_by_precedence absent0
            tokens.ASTERISC "*" tokens.PLUS "+" "a" "b" "c" _ _);
    reflexivity.
Defined.

Lemma infix_handlers_have_precedence_witness :
  exists p, parser.precedences tokens.LPAR = Some p /\ (parser.LOWEST < p)%nat.
Proof.
  refine (infix_handlers_have_precedence absent0
            (parser.parseExpression absent0 1) tokens.LPAR _).
  eexists. reflexivity.
Defined.

Lemma absent0_keeps_errors : invariants.absent_keeps_errors absent0.
Proof.
  repeat split; repeat intro;
    match goal with
    | H : _ = Some _ |- _ => injection H as <- <-
    end; exists []; apply app_nil_r_eq.
Qed.

Lemma parse_errors_accumulate_witness :
  (forall fuel precedence,
     invariants.keeps_errors (parser.parseExpression absent0 fuel precedence)) /\
  (forall fuel Statements,
     invariants.keeps_errors (parser.ParseProgram_from absent0 fuel Statements)) /\
  (forall fuel p tree p',
     parser.ParseProgram absent0 fuel p = Some (tree, p') ->
     parser.HasErrors p = true -> parser.HasErrors p' = true).
Proof.
  refine (parse_errors_accumulate absent0 _).
  exact absent0_keeps_errors.
Defined.

Lemma double_minus_is_identity_witness :
  eval Inspect0 ToString0 evalForLoop0 3
    (ast.PrefixExpression "-"
       (ast.PrefixExpression "-" (INT (- 9223372036854775808))))
    0%nat [NewStorage]
  = Ok (Some (Integer (- 9223372036854775808)), [NewStorage]).
Proof.
  refine (double_minus_is_identity Inspect0 ToString0 evalForLoop0
            1 (INT (- 9223372036854775808)) 0%nat [NewStorage]
            (- 9223372036854775808) [NewStorage] _ _).
  - reflexivity.
  - unfold invariants.int64. lia.
Defined.

Lemma double_negation_on_static_booleans_witness :
  eval Inspect0 ToString0 evalForLoop0 3
    (ast.PrefixExpression "!" (ast.PrefixExpression "!" FALSE))
    0%nat [NewStorage]
  = Ok (Some (Boolean false_obj), [NewStorage]).
Proof.
  refine (double_negation_on_static_booleans Inspect0 ToString0 evalForLoop0
            1 FALSE 0%nat [NewStorage] false_obj [NewStorage] _ _).
  - reflexivity.
  - right. reflexivity.
Defined.
